(** * A GraphQL-over-WebSocket subscription server: model and properties

    Shallow embedding of [src/index.js]: the [sendMessage] mutation
    resolver, the three [setInterval] sample generators, the shared
    [idCounter], and the publish/subscribe broker they talk to.

    JavaScript values are modelled as the code has them:
    - [idCounter] is a Number (an IEEE-754 binary64).  It only ever holds
      integers, so it is a [Z], and [idCounter++] is written with the
      rounding of the sum to the nearest binary64;
    - [String(n)] of an integral Number is its decimal numeral;
    - [new Date().toISOString()] reads a clock kept in the state;
    - the non-integral Numbers of the status generator are exact rationals
      ([Q]) with the binary64 rounding after every operation. *)

From Stdlib Require Import ZArith QArith Qround Qpower String Ascii List Bool Lia.
From Stdlib Require Import DecimalString DecimalPos DecimalZ Sorted FinFun.
Import ListNotations.

Local Open Scope string_scope.
Local Open Scope Z_scope.

(** ** JavaScript Numbers holding integers *)

Module JsNumber.

(** Nearest integer to [u / v] for [0 < v], ties to the even neighbour. *)
Definition rne_div (u v : Z) : Z :=
  let q := u / v in
  let r := u mod v in
  match 2 * r ?= v with
  | Lt => q
  | Gt => q + 1
  | Eq => if Z.even q then q else q + 1
  end.

(** The binary64 nearest to the integer [n] (53 bits of significand).
    Integers of magnitude below [2^1024] never overflow; the counter
    stays far below. *)
Definition round_int (n : Z) : Z :=
  let k := Z.log2 (Z.abs n) - 52 in
  if k <=? 0 then n else rne_div n (2 ^ k) * 2 ^ k.

(** [a + b] on Numbers that hold integers. *)
Definition add (a b : Z) : Z := round_int (a + b).

(** The largest value [idCounter] can take: at [2^53] the successor is
    not representable and the sum rounds back. *)
Definition limit : Z := 2 ^ 53.

(** [String(n)] for an integral Number of magnitude below [10^21]:
    the decimal numeral, with a leading minus sign when negative. *)
Definition String (n : Z) : string := NilZero.string_of_int (Z.to_int n).

End JsNumber.

(** ** JavaScript Numbers in general: binary64 as exact rationals

    A finite binary64 is a rational [m * 2^q] with [|m| < 2^53] and
    [-1074 <= q].  Every arithmetic operation yields the exact result
    rounded to the nearest such value, ties to the even significand.
    Overflow to infinity (magnitudes of [2^1024] and above) is outside of
    what the server computes and is not modelled. *)

Module JsDouble.

Local Open Scope Q_scope.

(** [floor (log2 x)] for [0 < x]. *)
Definition ilog2 (x : Q) : Z :=
  let a := Qnum x in
  let b := Zpos (Qden x) in
  let d := (Z.log2 a - Z.log2 b)%Z in
  if (b * 2 ^ Z.max d 0 <=? a * 2 ^ Z.max (- d) 0)%Z then d else (d - 1)%Z.

(** [x * 2^q] *)
Definition scale (x : Q) (q : Z) : Q :=
  if (0 <=? q)%Z then x * inject_Z (2 ^ q) else x / inject_Z (2 ^ (- q)).

(** Nearest integer, ties to even. *)
Definition rne (x : Q) : Z := JsNumber.rne_div (Qnum x) (Zpos (Qden x)).

(** Exponent of the unit in the last place of the binade of [x]. *)
Definition ulp_exp (x : Q) : Z := Z.max (ilog2 x - 52) (-1074).

(** The multiple of [2^q] nearest to [x]. *)
Definition round_grid (q : Z) (x : Q) : Q :=
  scale (inject_Z (rne (scale x (- q)))) q.

Definition round_pos (x : Q) : Q := round_grid (ulp_exp x) x.

(** The binary64 nearest to the rational [x]. *)
Definition round (x : Q) : Q :=
  match Qnum x with
  | Z0 => 0
  | Zpos _ => round_pos x
  | Zneg _ => - round_pos (- x)
  end.

Definition mul (x y : Q) : Q := round (x * y).
Definition add (x y : Q) : Q := round (x + y).

(** A decimal literal of the source, such as [0.1] or [1.5]. *)
Definition literal (num den : Z) : Q := round (Qmake num (Z.to_pos den)).

(** [x.toFixed(2)]: the integer [n] for which [n / 100 - x] is as close
    to zero as possible, the larger one when there are two; the result
    string is the decimal numeral of [n / 100] with two fraction digits
    (for a negative [x], the minus sign followed by that of [- x]).  The
    numeral is kept as its number of hundredths. *)
Definition toFixed2 (x : Q) : Z :=
  if Qle_bool 0 x then Qfloor (x * 100 + (1 # 2))
  else (- Qfloor (- x * 100 + (1 # 2)))%Z.

(** [Number(s)] for the numeral [s] of [n] hundredths: the nearest
    binary64. *)
Definition Number_of_fixed2 (n : Z) : Q := round (Qmake n 100).

End JsDouble.

(** ** [Date.prototype.toISOString] *)

Module JsDate.

(** Days since 1970-01-01 to the civil (proleptic Gregorian) date. *)
Definition civil_from_days (days : Z) : Z * Z * Z :=
  let z := days + 719468 in
  let era := z / 146097 in
  let doe := z - era * 146097 in
  let yoe := (doe - doe / 1460 + doe / 36524 - doe / 146096) / 365 in
  let y := yoe + era * 400 in
  let doy := doe - (365 * yoe + yoe / 4 - yoe / 100) in
  let mp := (5 * doy + 2) / 153 in
  let d := doy - (153 * mp + 2) / 5 + 1 in
  let m := if mp <? 10 then mp + 3 else mp - 9 in
  (if m <=? 2 then y + 1 else y, m, d).

Definition digit (n : Z) : ascii := ascii_of_nat (48 + Z.to_nat (n mod 10)).

(** The [w] low decimal digits of [n], zero padded. *)
Fixpoint pad (w : nat) (n : Z) (acc : string) : string :=
  match w with
  | O => acc
  | S w' => pad w' (n / 10) (String (digit n) acc)
  end.

Definition year_string (y : Z) : string :=
  if (0 <=? y) && (y <=? 9999) then pad 4 y ""
  else if 0 <=? y then "+" ++ pad 6 y ""
  else "-" ++ pad 6 (- y) "".

(** [new Date(ms).toISOString()] for a time value [ms] (milliseconds
    since the epoch, UTC). *)
Definition toISOString (ms : Z) : string :=
  let days := ms / 86400000 in
  let rest := ms mod 86400000 in
  let '(y, m, d) := civil_from_days days in
  year_string y ++ "-" ++ pad 2 m "" ++ "-" ++ pad 2 d "" ++ "T" ++
  pad 2 (rest / 3600000) "" ++ ":" ++ pad 2 (rest / 60000 mod 60) "" ++ ":" ++
  pad 2 (rest / 1000 mod 60) "" ++ "." ++ pad 3 (rest mod 1000) "" ++ "Z".

End JsDate.

(** ** Event payloads (the GraphQL object types of [typeDefs]) *)

Record Message : Type := mkMessage {
  id : string;
  text : string;
  createdAt : string;
  author : string;
  channel : string;
  important : bool;
  tags : list string
}.

Record SystemStatus : Type := mkSystemStatus {
  online : bool;
  load : Q;
  status_updatedAt : string
}.

Record Settings : Type := mkSettings {
  theme : string;
  lang : string;
  settings_updatedAt : string
}.

(** The objects handed to [pubsub.publish]: [{ messageAdded: message }],
    [{ systemStatusChanged: status }], [{ settingsUpdated: settings }]. *)
Inductive payload : Type :=
| messageAdded (m : Message)
| systemStatusChanged (s : SystemStatus)
| settingsUpdated (s : Settings).

Definition MESSAGE_ADDED : string := "MESSAGE_ADDED".
Definition SYSTEM_STATUS_CHANGED : string := "SYSTEM_STATUS_CHANGED".
Definition SETTINGS_UPDATED : string := "SETTINGS_UPDATED".

(** ** The broker *)

(** Modelled from the spec: [PubSub] of the [graphql-subscriptions]
    package is imported by [src/index.js] and is not part of the
    repository's sources.  The specification describes it as a topic
    registry: [subscribe] registers a new, empty subscriber queue under a
    topic; [publish] delivers the payload to every queue registered under
    the topic at that moment, in registration order, and is a no-op for a
    topic without subscribers; [unsubscribe] removes a queue and is
    idempotent; a subscriber consumes its queue from the front. *)
Module PubSub.

Record subscription : Type := mkSubscription {
  sid : nat;
  topic : string;
  queue : list payload
}.

Record t : Type := mkRegistry {
  subscriptions : list subscription;
  next_sid : nat
}.

Definition empty : t := {| subscriptions := []; next_sid := 0 |}.

(** [pubsub.asyncIterator(topic)]: a fresh subscription with an empty
    queue, registered after the existing ones. *)
Definition asyncIterator (tp : string) (r : t) : nat * t :=
  (next_sid r,
   {| subscriptions :=
        (subscriptions r ++ [mkSubscription (next_sid r) tp []])%list;
      next_sid := S (next_sid r) |}).

Definition enqueue (tp : string) (p : payload) (s : subscription)
  : subscription :=
  if String.eqb (topic s) tp
  then mkSubscription (sid s) (topic s) (queue s ++ [p])%list
  else s.

(** [pubsub.publish(topic, payload)] *)
Definition publish (tp : string) (p : payload) (r : t) : t :=
  {| subscriptions := map (enqueue tp p) (subscriptions r);
     next_sid := next_sid r |}.

Definition unsubscribe (i : nat) (r : t) : t :=
  {| subscriptions :=
       filter (fun s => negb (Nat.eqb (sid s) i)) (subscriptions r);
     next_sid := next_sid r |}.

Definition find (i : nat) (r : t) : option subscription :=
  List.find (fun s => Nat.eqb (sid s) i) (subscriptions r).

Definition pop (i : nat) (s : subscription) : subscription :=
  if Nat.eqb (sid s) i
  then mkSubscription (sid s) (topic s) (tl (queue s))
  else s.

(** The subscriber [i] takes the event at the front of its queue, if
    it has one. *)
Definition next (i : nat) (r : t) : option payload * t :=
  match find i r with
  | Some s =>
      match queue s with
      | [] => (None, r)
      | p :: _ =>
          (Some p,
           {| subscriptions := map (pop i) (subscriptions r);
              next_sid := next_sid r |})
      end
  | None => (None, r)
  end.

End PubSub.

(** ** The state of the server process *)

Record World : Type := mkWorld {
  idCounter : Z;                        (* [let idCounter = 1] *)
  now : Z;                              (* the clock [new Date()] reads, in ms *)
  pubsub : PubSub.t;                    (* [const pubsub = new PubSub()] *)
  published : list (string * payload)   (* history of [pubsub.publish] calls *)
}.

(** The state right after the module is loaded, at time [t0]. *)
Definition boot (t0 : Z) : World :=
  {| idCounter := 1; now := t0; pubsub := PubSub.empty; published := [] |}.

(** *** State monad of the handlers *)

Definition M (A : Type) : Type := World -> A * World.

Definition ret {A : Type} (a : A) : M A := fun w => (a, w).

Definition bind {A B : Type} (c : M A) (k : A -> M B) : M B :=
  fun w => let (a, w') := c w in k a w'.

Notation "x <- c ;; k" := (bind c (fun x => k))
  (at level 61, c at next level, right associativity).
Notation "c ;;; k" := (bind c (fun _ => k))
  (at level 61, right associativity).

(** [idCounter++]: yields the old value and stores the (rounded) sum. *)
Definition post_increment_idCounter : M Z :=
  fun w =>
    (idCounter w,
     {| idCounter := JsNumber.add (idCounter w) 1; now := now w;
        pubsub := pubsub w; published := published w |}).

Definition read_idCounter : M Z := fun w => (idCounter w, w).

(** [new Date().toISOString()] *)
Definition new_Date_toISOString : M string :=
  fun w => (JsDate.toISOString (now w), w).

(** [pubsub.publish(topic, payload)]: fan-out to the subscribers. *)
Definition pubsub_publish (tp : string) (p : payload) : M unit :=
  fun w =>
    (tt,
     {| idCounter := idCounter w; now := now w;
        pubsub := PubSub.publish tp p (pubsub w);
        published := (published w ++ [(tp, p)])%list |}).

(** *** [async] functions

    An [async] function runs synchronously up to its first [await]; what
    follows the [await] runs later, in a continuation. *)
#[warnings="-register-all"] Inductive Async (A : Type) : Type :=
| Return (a : A)
| Await (k : World -> Async A * World).

Arguments Return {A} a.
Arguments Await {A} k.

(** Run an [async] computation through all of its continuations. *)
Fixpoint settle {A : Type} (p : Async A) (w : World) : A * World :=
  match p with
  | Return a => (a, w)
  | Await k => let (p', w') := k w in settle p' w'
  end.

Definition run_async {A : Type} (c : M (Async A)) : M A :=
  fun w => let (p, w') := c w in settle p w'.


(** ** Resolvers and generators of [src/index.js] *)

(** The [args] object a resolver of [sendMessage] receives once the
    executor has coerced the arguments against [typeDefs]: [text] is a
    string; the other four are a value or [null]. *)
Record sendMessage_args : Type := mk_sendMessage_args {
  args_text : string;
  args_author : option string;
  args_channel : option string;
  args_important : option bool;
  args_tags : option (list string)
}.

(** [resolvers.Mutation.sendMessage = async (_, { text }) => ...] *)
Definition sendMessage (args : sendMessage_args) : M (Async Message) :=
  let text := args_text args in
  n <- post_increment_idCounter ;;
  stamp <- new_Date_toISOString ;;
  let message :=
    {| id := JsNumber.String n;
       text := text;
       createdAt := stamp;
       author := "user";
       channel := "general";
       important := false;
       tags := [] |} in
  pubsub_publish MESSAGE_ADDED (messageAdded message) ;;;
  ret (Await (ret (Return message))).

(** The callback of [setInterval(..., 5000)] *)
Definition message_generator : M (Async unit) :=
  n <- post_increment_idCounter ;;
  c <- read_idCounter ;;
  stamp <- new_Date_toISOString ;;
  let message :=
    {| id := JsNumber.String n;
       text := "Server message #" ++ JsNumber.String c;
       createdAt := stamp;
       author := "server";
       channel := "news";
       important := false;
       tags := ["auto"] |} in
  pubsub_publish MESSAGE_ADDED (messageAdded message) ;;;
  ret (Await (ret (Return tt))).

(** [Number((Math.random() * 1.5 + 0.1).toFixed(2))] for the draw [r]. *)
Definition status_load (r : Q) : Q :=
  JsDouble.Number_of_fixed2
    (JsDouble.toFixed2
       (JsDouble.add (JsDouble.mul r (JsDouble.literal 15 10))
                     (JsDouble.literal 1 10))).

(** The callback of [setInterval(..., 7000)]; [r] is what [Math.random()]
    returns in this call. *)
Definition status_generator (r : Q) : M (Async unit) :=
  let l := status_load r in
  stamp <- new_Date_toISOString ;;
  let status := {| online := true; load := l; status_updatedAt := stamp |} in
  pubsub_publish SYSTEM_STATUS_CHANGED (systemStatusChanged status) ;;;
  ret (Await (ret (Return tt))).

(** [Math.random() > 0.5] *)
Definition above_half (r : Q) : bool := negb (Qle_bool r (JsDouble.literal 5 10)).

(** The callback of [setInterval(..., 9000)]; [r1] and [r2] are the two
    draws of [Math.random()], in evaluation order. *)
Definition settings_generator (r1 r2 : Q) : M (Async unit) :=
  let th := if above_half r1 then "dark" else "light" in
  let lg := if above_half r2 then "ja" else "en" in
  stamp <- new_Date_toISOString ;;
  let settings := {| theme := th; lang := lg; settings_updatedAt := stamp |} in
  pubsub_publish SETTINGS_UPDATED (settingsUpdated settings) ;;;
  ret (Await (ret (Return tt))).

(** ** The executor's view of [typeDefs]

    [sendMessage(text: String!, author: String = "user",
                 channel: String = "general", important: Boolean = false,
                 tags: [String!] = []): Message!] *)

(** An argument of a request: left out, the literal [null], or a value
    of the declared type. *)
Inductive argument (A : Type) : Type :=
| Absent
| Null
| Given (a : A).

Arguments Absent {A}.
Arguments Null {A}.
Arguments Given {A} a.

Record sendMessage_request : Type := mk_sendMessage_request {
  req_text : argument string;
  req_author : argument string;
  req_channel : argument string;
  req_important : argument bool;
  req_tags : argument (list string)
}.

Inductive GraphQLError : Type :=
| required_argument_not_provided (name : string)
| null_for_non_null_argument (name : string)
| value_of_wrong_type (name : string)
| unknown_argument (name : string)
| duplicated_argument (name : string).

(** A nullable argument with a default value: the default applies when
    the argument is left out; an explicit [null] stays [null]. *)
Definition with_default {A : Type} (d : A) (a : argument A) : option A :=
  match a with
  | Absent => Some d
  | Null => None
  | Given v => Some v
  end.

(** The executor's check of a request whose arguments are of their
    declared types: [text] has to be there and must not be [null]; the
    defaults fill in what is left out.  The check of the arguments as the
    client wrote them, which comes first and ends in this one, is
    [check_arguments] below. *)
Definition coerce_sendMessage (r : sendMessage_request)
  : GraphQLError + sendMessage_args :=
  match req_text r with
  | Absent => inl (required_argument_not_provided "text")
  | Null => inl (null_for_non_null_argument "text")
  | Given t =>
      inr {| args_text := t;
             args_author := with_default "user" (req_author r);
             args_channel := with_default "general" (req_channel r);
             args_important := with_default false (req_important r);
             args_tags := with_default [] (req_tags r) |}
  end.

(** What the client gets back for the mutation. *)
Inductive response : Type :=
| data (m : Message)
| errors (e : GraphQLError).

(** Executing the mutation: the resolver runs only when the arguments
    pass; its promise is awaited for the result. *)
Definition execute_sendMessage (r : sendMessage_request) : M response :=
  match coerce_sendMessage r with
  | inl e => ret (errors e)
  | inr args => m <- run_async (sendMessage args) ;; ret (data m)
  end.

(** ** Requests as they arrive

    The arguments of a [sendMessage] field as the client wrote them: any
    names, each with any input value (a literal, or what a variable was
    given).  The executor checks them against [typeDefs] before it calls
    the resolver; the rest of the operation (its selection of Message
    fields) is taken to be valid. *)

#[warnings="-register-all"] Inductive input_value : Type :=
| V_null
| V_int (n : Z)
| V_float (q : Q)
| V_string (s : string)
| V_boolean (b : bool)
| V_enum (name : string)
| V_list (items : list input_value)
| V_object (fields : list (string * input_value)).

Definition arguments : Type := list (string * input_value).

(** The arguments [typeDefs] declares for [sendMessage]. *)
Definition argument_names : list string :=
  ["text"; "author"; "channel"; "important"; "tags"].

(** Input coercion for [String]: a string is itself, [null] is [null],
    anything else (a number, a boolean, an enum value, a list, an object)
    is refused. *)
Definition coerce_String (v : input_value) : option (argument string) :=
  match v with
  | V_null => Some Null
  | V_string s => Some (Given s)
  | _ => None
  end.

(** Input coercion for [Boolean]. *)
Definition coerce_Boolean (v : input_value) : option (argument bool) :=
  match v with
  | V_null => Some Null
  | V_boolean b => Some (Given b)
  | _ => None
  end.

(** Input coercion for an item of type [String!]. *)
Definition coerce_String_item (v : input_value) : option string :=
  match v with
  | V_string s => Some s
  | _ => None
  end.

Fixpoint coerce_String_items (items : list input_value)
  : option (list string) :=
  match items with
  | [] => Some []
  | v :: rest =>
      match coerce_String_item v, coerce_String_items rest with
      | Some s, Some l => Some (s :: l)
      | _, _ => None
      end
  end.

(** Input coercion for [[String!]]: [null], a list of strings, or a
    single string, which stands for the list of that one item. *)
Definition coerce_String_list (v : input_value)
  : option (argument (list string)) :=
  match v with
  | V_null => Some Null
  | V_list items => option_map Given (coerce_String_items items)
  | _ => option_map (fun s => Given [s]) (coerce_String_item v)
  end.

Fixpoint lookup (name : string) (args : arguments) : option input_value :=
  match args with
  | [] => None
  | (n, v) :: rest => if String.eqb n name then Some v else lookup name rest
  end.

(** The first name that occurs twice, if one does. *)
Fixpoint first_duplicate (names : list string) : option string :=
  match names with
  | [] => None
  | n :: rest =>
      if existsb (String.eqb n) rest then Some n else first_duplicate rest
  end.

(** The argument [name], coerced by [coerce]: left out, or its coerced
    value, or an error for a value of the wrong type. *)
Definition coerce_argument {A : Type}
           (coerce : input_value -> option (argument A))
           (name : string) (args : arguments)
  : GraphQLError + argument A :=
  match lookup name args with
  | None => inr Absent
  | Some v =>
      match coerce v with
      | Some a => inr a
      | None => inl (value_of_wrong_type name)
      end
  end.

(** Validation of the arguments; of several errors the first is kept. *)
Definition check_arguments (args : arguments)
  : GraphQLError + sendMessage_request :=
  match find (fun n => negb (existsb (String.eqb n) argument_names))
             (map fst args) with
  | Some n => inl (unknown_argument n)
  | None =>
      match first_duplicate (map fst args) with
      | Some n => inl (duplicated_argument n)
      | None =>
          match coerce_argument coerce_String "text" args,
                coerce_argument coerce_String "author" args,
                coerce_argument coerce_String "channel" args,
                coerce_argument coerce_Boolean "important" args,
                coerce_argument coerce_String_list "tags" args with
          | inr t, inr a, inr c, inr i, inr g =>
              inr (mk_sendMessage_request t a c i g)
          | inl e, _, _, _, _ => inl e
          | _, inl e, _, _, _ => inl e
          | _, _, inl e, _, _ => inl e
          | _, _, _, inl e, _ => inl e
          | _, _, _, _, inl e => inl e
          end
      end
  end.

(** The mutation as the server executes it for the arguments [args]. *)
Definition execute_sendMessage_field (args : arguments) : M response :=
  match check_arguments args with
  | inl e => ret (errors e)
  | inr r => execute_sendMessage r
  end.

(** The arguments that pass [typeDefs]: known names, none twice, [text]
    a string, and every other argument that is given either [null] or of
    its declared type. *)
Definition string_or_null (v : input_value) : Prop :=
  v = V_null \/ exists s : string, v = V_string s.

Definition boolean_or_null (v : input_value) : Prop :=
  v = V_null \/ exists b : bool, v = V_boolean b.

Definition strings_or_null (v : input_value) : Prop :=
  v = V_null \/
  (exists s : string, v = V_string s) \/
  (exists items : list input_value,
      v = V_list items /\
      Forall (fun x => exists s : string, x = V_string s) items).

Definition acceptable (args : arguments) : Prop :=
  NoDup (map fst args) /\
  (forall n : string, In n (map fst args) -> In n argument_names) /\
  (exists s : string, In ("text", V_string s) args) /\
  (forall v, In ("author", v) args -> string_or_null v) /\
  (forall v, In ("channel", v) args -> string_or_null v) /\
  (forall v, In ("important", v) args -> boolean_or_null v) /\
  (forall v, In ("tags", v) args -> strings_or_null v).

(** The request [sendMessage(text: "", tags: [null])]. *)
Definition null_tag_arguments : arguments :=
  [("text", V_string ""); ("tags", V_list [V_null])].


(** [resolvers.Subscription]: each field subscribes to its topic. *)
Inductive subscription_field : Type :=
| field_messageAdded
| field_systemStatusChanged
| field_settingsUpdated.

Definition topic_of (f : subscription_field) : string :=
  match f with
  | field_messageAdded => MESSAGE_ADDED
  | field_systemStatusChanged => SYSTEM_STATUS_CHANGED
  | field_settingsUpdated => SETTINGS_UPDATED
  end.

Definition with_pubsub (w : World) (r : PubSub.t) : World :=
  {| idCounter := idCounter w; now := now w; pubsub := r;
     published := published w |}.

Definition Subscription_subscribe (f : subscription_field) : M nat :=
  fun w =>
    let (i, r) := PubSub.asyncIterator (topic_of f) (pubsub w) in
    (i, with_pubsub w r).

(** ** The event loop

    Node runs one callback at a time.  The continuation an [await] leaves
    behind is a microtask and runs before the next timer or network
    callback starts, so every event below runs its handler to the end. *)

Inductive generator : Type :=
| MessageGenerator
| StatusGenerator
| SettingsGenerator.

(** The delays given to [setInterval], in milliseconds. *)
Definition interval (g : generator) : Z :=
  match g with
  | MessageGenerator => 5000
  | StatusGenerator => 7000
  | SettingsGenerator => 9000
  end.

Inductive event : Type :=
| Ev_sendMessage (r : sendMessage_request)   (* a client sends the mutation *)
| Ev_message_timer                           (* the 5000 ms timer fires *)
| Ev_status_timer (r : Q)                    (* the 7000 ms timer fires *)
| Ev_settings_timer (r1 r2 : Q)              (* the 9000 ms timer fires *)
| Ev_subscribe (f : subscription_field)      (* a client starts a subscription *)
| Ev_next (i : nat)                          (* subscriber [i] takes an event *)
| Ev_unsubscribe (i : nat)                   (* subscriber [i] stops *)
| Ev_clock (t : Z).                          (* the clock moves to [t] *)

Definition step (w : World) (e : event) : World :=
  match e with
  | Ev_sendMessage r => snd (execute_sendMessage r w)
  | Ev_message_timer => snd (run_async message_generator w)
  | Ev_status_timer r => snd (run_async (status_generator r) w)
  | Ev_settings_timer r1 r2 => snd (run_async (settings_generator r1 r2) w)
  | Ev_subscribe f => snd (Subscription_subscribe f w)
  | Ev_next i => with_pubsub w (snd (PubSub.next i (pubsub w)))
  | Ev_unsubscribe i => with_pubsub w (PubSub.unsubscribe i (pubsub w))
  | Ev_clock t =>
      {| idCounter := idCounter w; now := t; pubsub := pubsub w;
         published := published w |}
  end.

Definition run (w : World) (evs : list event) : World := fold_left step evs w.

(** The [id]s handed out so far, in the order of issue: every [id] is
    published on [MESSAGE_ADDED] by the handler that draws it. *)
Definition issued_id (p : string * payload) : list string :=
  match snd p with
  | messageAdded m => [id m]
  | _ => []
  end.

Definition issued_ids (w : World) : list string :=
  flat_map issued_id (published w).

(** Reading an [id] back as a number. *)
Definition Number_of_id (s : string) : option Z :=
  option_map Z.of_int (NilZero.int_of_string s).

Definition text_prefix : string := "Server message #".

(** [sub] occurs in [s]. *)
Definition contains (s sub : string) : Prop :=
  exists pre post : string, s = pre ++ sub ++ post.

(** The numbers [1; 2; ...; k]. *)
Definition Zseq (k : nat) : list Z := map Z.of_nat (seq 1 k).

(** The [i]-th value drawn from a counter that starts at [1]. *)
Definition nth_issue (i : Z) : string := JsNumber.String (Z.min i JsNumber.limit).

(** Events that draw an [id]: an accepted [sendMessage] and a tick of
    the message generator. *)
Definition issues (e : event) : bool :=
  match e with
  | Ev_sendMessage r =>
      match req_text r with
      | Given _ => true
      | _ => false
      end
  | Ev_message_timer => true
  | _ => false
  end.

Definition count_issues (evs : list event) : nat := length (filter issues evs).

(** The Message published last, if the last payload is one. *)
Definition last_message (w : World) : option Message :=
  match last (map snd (published w)) (settingsUpdated (mkSettings "" "" "")) with
  | messageAdded m => Some m
  | _ => None
  end.

(** The number shown in the text of a generated Message is its [id]
    plus one. *)
Definition text_shows_id_plus_one (m : Message) : Prop :=
  exists n : Z,
    Number_of_id (id m) = Some n /\
    text m = text_prefix ++ JsNumber.String (n + 1).

Definition is_error (r : response) : bool :=
  match r with
  | errors _ => true
  | data _ => false
  end.

Definition text_missing (r : sendMessage_request) : Prop :=
  req_text r = Absent \/ req_text r = Null.

Definition text_empty (r : sendMessage_request) : Prop :=
  req_text r = Given "".

(** A request that gives the empty string as [text] and nothing else. *)
Definition empty_text_request : sendMessage_request :=
  mk_sendMessage_request (Given "") Absent Absent Absent Absent.

(** [n] ticks of the message generator in a row. *)
Definition message_ticks (n : nat) : list event := repeat Ev_message_timer n.

(** As many ticks as it takes for the counter to reach its limit. *)
Definition ticks_to_limit : nat := Z.to_nat (JsNumber.limit - 1).

(** After [k] draws the counter reads [min (1 + k) 2^53], and the [i]-th
    [id] handed out is the numeral of [min i 2^53]. *)
Definition after_issues (k : nat) (w : World) : Prop :=
  idCounter w = Z.min (1 + Z.of_nat k) JsNumber.limit /\
  issued_ids w = map nth_issue (Zseq k).

(** What subscriber [i] receives, in order, while the events [evs] run
    from the state [w]: the results of its own [next] calls. *)
Fixpoint observed (i : nat) (w : World) (evs : list event) : list payload :=
  match evs with
  | [] => []
  | e :: evs' =>
      let rest := observed i (step w e) evs' in
      match e with
      | Ev_next j =>
          if Nat.eqb j i
          then match fst (PubSub.next i (pubsub w)) with
               | Some p => p :: rest
               | None => rest
               end
          else rest
      | _ => rest
      end
  end.

(** The payloads of the publishes on topic [tp] among [l], in order. *)
Definition topic_payloads (tp : string) (l : list (string * payload))
  : list payload :=
  map snd (filter (fun x => String.eqb (fst x) tp) l).

(** The publishes made between the states [w0] and [w]. *)
Definition published_since (w0 w : World) : list (string * payload) :=
  skipn (length (published w0)) (published w).

(** Every subscription was numbered by the registry. *)
Definition registry_wf (r : PubSub.t) : Prop :=
  Forall (fun s => (PubSub.sid s < PubSub.next_sid r)%nat) (PubSub.subscriptions r).

(** Every event but a tick of the status generator. *)
Definition not_status_timer (e : event) : bool :=
  match e with
  | Ev_status_timer _ => false
  | _ => true
  end.

(** The publishes on the topics other than [SYSTEM_STATUS_CHANGED]. *)
Definition off_status (l : list (string * payload)) : list (string * payload) :=
  filter (fun x => negb (String.eqb (fst x) SYSTEM_STATUS_CHANGED)) l.

(** Two states that the message and settings generators and the
    [sendMessage] resolver cannot tell apart. *)
Definition same_for_others (w w' : World) : Prop :=
  idCounter w = idCounter w' /\
  now w = now w' /\
  off_status (published w) = off_status (published w').

(** ** The publish history as a whole *)

(** The subscription field a payload object is keyed by. *)
Definition payload_field (p : payload) : subscription_field :=
  match p with
  | messageAdded _ => field_messageAdded
  | systemStatusChanged _ => field_systemStatusChanged
  | settingsUpdated _ => field_settingsUpdated
  end.

(** The Messages among the publishes [l], in order. *)
Definition messages_of (l : list (string * payload)) : list Message :=
  flat_map (fun x => match snd x with
                     | messageAdded m => [m]
                     | _ => []
                     end) l.

(** The two kinds of Message the server builds. *)
Definition from_user (m : Message) : Prop :=
  author m = "user" /\ channel m = "general" /\ tags m = [].

Definition from_server (m : Message) : Prop :=
  author m = "server" /\ channel m = "news" /\ tags m = ["auto"] /\
  exists n : Z, 1 <= n <= JsNumber.limit /\
                text m = text_prefix ++ JsNumber.String n.

(** What holds of every payload the server builds. *)
Definition built_by_server (p : payload) : Prop :=
  match p with
  | messageAdded m =>
      important m = false /\
      (from_user m \/ from_server m) /\
      exists n : Z, 1 <= n <= JsNumber.limit /\ id m = JsNumber.String n
  | systemStatusChanged s => online s = true
  | settingsUpdated s =>
      (theme s = "dark" \/ theme s = "light") /\
      (lang s = "ja" \/ lang s = "en")
  end.

(** * The front-end of [docs/graphql-ws-front.md]

    The React component [MessageList] that the repository documents as
    the client of the server: it subscribes to [messageAdded], keeps the
    list of the Messages it has received, and sends what is typed into
    its form with the [sendMessage] mutation. *)

Module Client.

(** [type Message = { id: string; text: string; createdAt: string }] *)
Record Message : Type := mk {
  id : string;
  text : string;
  createdAt : string
}.

(** The selection [{ id text createdAt }] of both operations of
    [operations.ts]: what of a Message of the server ([m], with its seven
    fields) reaches the client. *)
Definition select m : Message :=
  match m with
  | mkMessage i t c _ _ _ _ => mk i t c
  end.

(** The updater [onData] passes to [setMessages]; [None] is a result
    without [data.messageAdded]. *)
Definition onData (newMessage : option Message) (prev : list Message)
  : list Message :=
  match newMessage with
  | None => prev
  | Some nm =>
      if existsb (fun m => String.eqb (id m) (id nm)) prev
      then prev
      else (prev ++ [nm])%list
  end.

(** The list after the results [ds] have arrived, in this order. *)
Definition receive (ds : list (option Message)) (prev : list Message)
  : list Message :=
  fold_left (fun l d => onData d l) ds prev.

(** The text of the form is looked into by [trim], so it is kept as the
    JavaScript string it is: a sequence of UTF-16 code units. *)
Definition js_string : Type := list N.

(** WhiteSpace and LineTerminator of ECMAScript, which [trim] strips:
    TAB, LF, VT, FF, CR, SP, NBSP, the other space separators of Unicode,
    LS, PS and the byte order mark. *)
Definition is_white_space (c : N) : bool :=
  ((9 <=? c) && (c <=? 13) || (c =? 32) || (c =? 160) || (c =? 5760) ||
   (8192 <=? c) && (c <=? 8202) || (c =? 8232) || (c =? 8233) ||
   (c =? 8239) || (c =? 8287) || (c =? 12288) || (c =? 65279))%N.

Fixpoint trimStart (s : js_string) : js_string :=
  match s with
  | [] => []
  | c :: s' => if is_white_space c then trimStart s' else s
  end.

(** [String.prototype.trim] *)
Definition trim (s : js_string) : js_string :=
  rev (trimStart (rev (trimStart s))).

(** The state of the component: [useState<Message[]>([])] and
    [useState("")]. *)
Record State : Type := mkState {
  messages : list Message;
  input : js_string
}.

Definition initial : State := {| messages := []; input := [] |}.

(** How the promise of the mutation settles. *)
Inductive settlement : Type :=
| fulfilled
| rejected.

(** What a submit does towards the outside: nothing, or the mutation
    with [variables: { text }], followed by an alert when it failed. *)
Inductive submitted : Type :=
| nothing_sent
| sent (text : js_string) (alerted : bool).

(** [handleSubmit], given how the mutation will settle if it is sent. *)
Definition handleSubmit (mutation : settlement) (st : State)
  : submitted * State :=
  match trim (input st) with
  | [] => (nothing_sent, st)
  | c :: t =>
      match mutation with
      | fulfilled => (sent (c :: t) false,
                      {| messages := messages st; input := [] |})
      | rejected => (sent (c :: t) true, st)
      end
  end.

End Client.

(** * The server as [docs/graphql-ws-stub.md] lists it

    The first version of [src/index.js], which the repository keeps in
    its documentation: Messages have an [id], a [text] and a [createdAt]
    only, [sendMessage] takes the [text] alone, and the message generator
    is the only timer.  Its state is kept as the counter, the clock and
    the history of what it has published on [MESSAGE_ADDED]. *)

Module Stub.

(** [type Message { id: ID!  text: String!  createdAt: String! }] *)
Record Message : Type := mk {
  id : string;
  text : string;
  createdAt : string
}.

Record World : Type := mkWorld {
  idCounter : Z;
  now : Z;
  published : list (string * Message)
}.

Definition boot (t0 : Z) : World :=
  {| idCounter := 1; now := t0; published := [] |}.

(** [resolvers.Mutation.sendMessage] of the listing. *)
Definition sendMessage (text : string) (w : World) : Message * World :=
  let message :=
    {| id := JsNumber.String (idCounter w);
       text := text;
       createdAt := JsDate.toISOString (now w) |} in
  (message,
   {| idCounter := JsNumber.add (idCounter w) 1;
      now := now w;
      published := (published w ++ [(MESSAGE_ADDED, message)])%list |}).

(** The callback of the listing's [setInterval(..., 5000)]. *)
Definition message_generator (w : World) : World :=
  let n := idCounter w in
  let c := JsNumber.add (idCounter w) 1 in
  let message :=
    {| id := JsNumber.String n;
       text := "Server message #" ++ JsNumber.String c;
       createdAt := JsDate.toISOString (now w) |} in
  {| idCounter := c;
     now := now w;
     published := (published w ++ [(MESSAGE_ADDED, message)])%list |}.

(** [sendMessage(text: String!): Message!] *)
Definition execute_sendMessage (tx : argument string) (w : World)
  : (GraphQLError + Message) * World :=
  match tx with
  | Absent => (inl (required_argument_not_provided "text"), w)
  | Null => (inl (null_for_non_null_argument "text"), w)
  | Given t => let (m, w') := sendMessage t w in (inr m, w')
  end.

Inductive event : Type :=
| Ev_sendMessage (tx : argument string)
| Ev_message_timer
| Ev_clock (t : Z).

Definition step (w : World) (e : event) : World :=
  match e with
  | Ev_sendMessage tx => snd (execute_sendMessage tx w)
  | Ev_message_timer => message_generator w
  | Ev_clock t => {| idCounter := idCounter w; now := t; published := published w |}
  end.

Definition run (w : World) (evs : list event) : World := fold_left step evs w.

(** What the front-end's selection keeps of a Message of the listing. *)
Definition selected (m : Message) : Client.Message :=
  Client.mk (id m) (text m) (createdAt m).

End Stub.

(** What an event of the server is to the server of the listing: the
    mutation with its [text] alone, the message timer, the clock; the
    listing knows nothing of the rest. *)
Definition to_stub (e : event) : list Stub.event :=
  match e with
  | Ev_sendMessage r => [Stub.Ev_sendMessage (req_text r)]
  | Ev_message_timer => [Stub.Ev_message_timer]
  | Ev_clock t => [Stub.Ev_clock t]
  | _ => []
  end.

(** The server and the listing's server look the same to the front-end. *)
Definition same_for_front_end (w : World) (sw : Stub.World) : Prop :=
  idCounter w = Stub.idCounter sw /\
  now w = Stub.now sw /\
  map Client.select (messages_of (published w))
    = map Stub.selected (map snd (Stub.published sw)).

(** The request [sendMessage(text: "hi")]. *)
Definition hi_request : sendMessage_request :=
  mk_sendMessage_request (Given "hi") Absent Absent Absent Absent.

(** The events that bear on the Messages the server publishes: the
    mutation, the ticks of the message generator and the passing of
    time.  No other handler touches [idCounter] or publishes on
    [MESSAGE_ADDED]. *)
Definition affects_messages (e : event) : bool :=
  match e with
  | Ev_sendMessage _ => true
  | Ev_message_timer => true
  | Ev_clock _ => true
  | _ => false
  end.

(** Two states with the same counter, the same clock and the same
    Messages published. *)
Definition same_for_messages (w w' : World) : Prop :=
  idCounter w = idCounter w' /\
  now w = now w' /\
  messages_of (published w) = messages_of (published w').

(** * Properties *)

(** ** Numbers and their numerals *)

Lemma round_int_exact (n : Z) :
  Z.abs n <= JsNumber.limit -> JsNumber.round_int n = n.
Proof.
  unfold JsNumber.round_int, JsNumber.limit. intros Hn.
  destruct (Z.eq_dec (Z.abs n) (2 ^ 53)) as [E | NE].
  - destruct (Z.abs_eq_or_opp n) as [A | A]; rewrite A in E.
    + subst n. reflexivity.
    + assert (n = - 2 ^ 53) by lia. subst n. reflexivity.
  - assert (Hlt : Z.abs n < 2 ^ 53) by lia.
    assert (Hk : Z.log2 (Z.abs n) < 53).
    { destruct (Z.eq_dec (Z.abs n) 0) as [Z0 | NZ].
      - rewrite Z0. simpl. lia.
      - apply Z.log2_lt_pow2; lia. }
    destruct (Z.leb_spec (Z.log2 (Z.abs n) - 52) 0); [reflexivity | lia].
Qed.

Lemma add_one_below_limit (c : Z) :
  0 <= c < JsNumber.limit -> JsNumber.add c 1 = c + 1.
Proof.
  intros H. unfold JsNumber.add. apply round_int_exact. lia.
Qed.

Lemma add_one_at_limit : JsNumber.add JsNumber.limit 1 = JsNumber.limit.
Proof. reflexivity. Qed.

(** The successor the counter takes, for a counter within its range. *)
Lemma add_one_min (c : Z) :
  0 <= c <= JsNumber.limit ->
  JsNumber.add c 1 = Z.min (c + 1) JsNumber.limit.
Proof.
  intros H. destruct (Z.eq_dec c JsNumber.limit) as [E | NE].
  - subst c. reflexivity.
  - rewrite add_one_below_limit by lia. lia.
Qed.

Lemma to_int_not_nil (n : Z) : Z.to_int n <> Decimal.Pos Decimal.Nil /\
                               Z.to_int n <> Decimal.Neg Decimal.Nil.
Proof.
  destruct n as [| p | p]; simpl; split; try discriminate;
    intros E; injection E as E; now apply (DecimalPos.Unsigned.to_uint_nonnil p).
Qed.

(** Reading the numeral of [n] back gives [n]. *)
Lemma Number_of_String (n : Z) : Number_of_id (JsNumber.String n) = Some n.
Proof.
  unfold Number_of_id, JsNumber.String.
  destruct (to_int_not_nil n) as [H1 H2].
  rewrite NilZero.isi by assumption. simpl.
  now rewrite DecimalZ.of_to.
Qed.

Lemma String_inj (n m : Z) : JsNumber.String n = JsNumber.String m -> n = m.
Proof.
  intros E. apply (f_equal Number_of_id) in E.
  rewrite !Number_of_String in E. congruence.
Qed.

(** ** The handlers, one call at a time *)

Lemma append_empty_r (s : string) : s ++ "" = s.
Proof. induction s as [| ch s IH]; simpl; [reflexivity | now rewrite IH]. Qed.

Lemma publish_delivers (tp : string) (p : payload) (r : PubSub.t)
      (s : PubSub.subscription) :
  In s (PubSub.subscriptions r) ->
  PubSub.topic s = tp ->
  In (PubSub.mkSubscription (PubSub.sid s) tp (PubSub.queue s ++ [p])%list)
     (PubSub.subscriptions (PubSub.publish tp p r)).
Proof.
  intros Hin Htp. unfold PubSub.publish; simpl.
  apply in_map_iff. exists s. split; [| assumption].
  unfold PubSub.enqueue. rewrite Htp, String.eqb_refl. reflexivity.
Qed.

(** C7. [sendMessage] has published by the time it suspends at its
    [await], and it has not answered yet: the Message is returned only by
    the continuation that follows the [await], which changes nothing, so
    the result never comes with the publish still to be done. *)
Theorem sendMessage_publishes_before_returning
        (args : sendMessage_args) (w : World) :
  exists (m : Message) (k : World -> Async Message * World) (w1 : World),
    sendMessage args w = (Await k, w1) /\
    published w1 = (published w ++ [(MESSAGE_ADDED, messageAdded m)])%list /\
    pubsub w1 = PubSub.publish MESSAGE_ADDED (messageAdded m) (pubsub w) /\
    (forall w2 : World, k w2 = (Return m, w2)) /\
    run_async (sendMessage args) w = (m, w1).
Proof.
  eexists. eexists. eexists.
  split.
  - cbv [sendMessage bind ret post_increment_idCounter new_Date_toISOString
         pubsub_publish].
    reflexivity.
  - repeat (split; [reflexivity |]). reflexivity.
Qed.

(** The continuation a generator callback leaves at its [await] only
    fulfils the callback's promise: whenever it is resumed, the state it
    finds is the state it leaves.  This is why the event loop may run every
    handler to its end in one step. *)
Lemma generator_continuations_are_inert (r r1 r2 : Q) (w : World) :
  (exists k w1, message_generator w = (Await k, w1) /\
                forall w2, k w2 = (Return tt, w2)) /\
  (exists k w1, status_generator r w = (Await k, w1) /\
                forall w2, k w2 = (Return tt, w2)) /\
  (exists k w1, settings_generator r1 r2 w = (Await k, w1) /\
                forall w2, k w2 = (Return tt, w2)).
Proof.
  repeat split; eexists; eexists; split;
    try (cbv [message_generator status_generator settings_generator bind ret
              post_increment_idCounter read_idCounter new_Date_toISOString
              pubsub_publish]; reflexivity);
    reflexivity.
Qed.

(** C4. A tick of the message generator, whose timer is set to 5000 ms,
    publishes exactly one payload, on [MESSAGE_ADDED]: a Message with
    [author = "server"], [channel = "news"], [tags = ["auto"]] and a
    [text] that ends with the numeral of the value the counter holds once
    the [id] has been drawn. *)
Theorem message_generator_tick (w : World) :
  exists (m : Message) (w' : World),
    run_async message_generator w = (tt, w') /\
    published w' = (published w ++ [(MESSAGE_ADDED, messageAdded m)])%list /\
    pubsub w' = PubSub.publish MESSAGE_ADDED (messageAdded m) (pubsub w) /\
    author m = "server" /\
    channel m = "news" /\
    tags m = ["auto"] /\
    text m = text_prefix ++ JsNumber.String (idCounter w') /\
    contains (text m) (JsNumber.String (idCounter w')) /\
    interval MessageGenerator = 5 * 1000.
Proof.
  eexists. eexists.
  split; [reflexivity |].
  repeat (split; [reflexivity |]).
  split; [| reflexivity].
  exists text_prefix, "". now rewrite append_empty_r.
Qed.

(** C10. Two calls of [sendMessage] with the same [text] give the same
    answer whenever the counter and the clock read the same, whatever the
    other four arguments are and whatever else the state holds; made in
    the same state they also publish the same payload and leave the same
    state. *)
Theorem sendMessage_ignores_other_arguments
        (tx : argument string) (a a' c c' : argument string)
        (i i' : argument bool) (g g' : argument (list string))
        (n clock : Z) (ps ps' : PubSub.t)
        (pb pb' : list (string * payload)) :
  fst (execute_sendMessage (mk_sendMessage_request tx a c i g)
                           (mkWorld n clock ps pb)) =
  fst (execute_sendMessage (mk_sendMessage_request tx a' c' i' g')
                           (mkWorld n clock ps' pb')) /\
  execute_sendMessage (mk_sendMessage_request tx a c i g)
                      (mkWorld n clock ps pb) =
  execute_sendMessage (mk_sendMessage_request tx a' c' i' g')
                      (mkWorld n clock ps pb).
Proof. destruct tx; split; reflexivity. Qed.

(** C3 as stated fails: [sendMessage] does not fail exactly when [text]
    is missing or empty, the empty string passes [String!]. *)
Lemma sendMessage_accepts_empty_text :
  ~ (is_error (fst (execute_sendMessage empty_text_request (boot 0))) = true
     <-> text_missing empty_text_request \/ text_empty empty_text_request).
Proof.
  intros [_ H].
  assert (E : is_error (fst (execute_sendMessage empty_text_request (boot 0)))
              = true).
  { apply H. right. reflexivity. }
  discriminate E.
Qed.

(** Of the requests whose arguments are of their declared types, those
    fail that leave [text] out or give [null] for it; the failure is an
    error response that leaves the state of the server as it was.  Every
    given [text], the empty string included, is accepted and comes back
    in the Message. *)
Lemma sendMessage_fails_iff_text_missing
        (r : sendMessage_request) (w : World) :
  (is_error (fst (execute_sendMessage r w)) = true <-> text_missing r) /\
  (forall e : GraphQLError,
      fst (execute_sendMessage r w) = errors e ->
      snd (execute_sendMessage r w) = w) /\
  (forall t : string,
      req_text r = Given t ->
      exists m : Message,
        fst (execute_sendMessage r w) = data m /\ text m = t).
Proof.
  unfold text_missing, execute_sendMessage, coerce_sendMessage.
  destruct (req_text r) as [| | t]; simpl.
  - repeat split; auto; discriminate.
  - repeat split; auto; discriminate.
  - split; [| split].
    + split; [discriminate | intros [H | H]; discriminate H].
    + discriminate.
    + intros t' E. injection E as <-. eexists. split; reflexivity.
Qed.

(** ** The arguments of a request *)

Lemma lookup_In (name : string) (args : arguments) (v : input_value) :
  lookup name args = Some v -> In (name, v) args.
Proof.
  induction args as [| [n x] args IH]; simpl; [discriminate |].
  destruct (String.eqb_spec n name) as [-> | NE].
  - intros E. injection E as ->. now left.
  - intros E. right. now apply IH.
Qed.

Lemma lookup_NoDup (name : string) (args : arguments) (v : input_value) :
  NoDup (map fst args) -> In (name, v) args -> lookup name args = Some v.
Proof.
  induction args as [| [n x] args IH]; simpl; intros ND H; [destruct H |].
  inversion ND as [| ? ? Hn ND']; subst.
  destruct H as [E | H].
  - injection E as -> ->. now rewrite String.eqb_refl.
  - destruct (String.eqb_spec n name) as [-> | NE].
    + exfalso. apply Hn. apply in_map_iff. exists (name, v). now split.
    + now apply IH.
Qed.

Lemma first_duplicate_NoDup (names : list string) :
  first_duplicate names = None <-> NoDup names.
Proof.
  induction names as [| n rest IH]; simpl.
  - split; [constructor | reflexivity].
  - destruct (existsb (String.eqb n) rest) eqn:E.
    + split; [discriminate |]. intros ND. inversion ND as [| ? ? Hn _]; subst.
      apply existsb_exists in E. destruct E as [x [Hx Hnx]].
      apply String.eqb_eq in Hnx. subst x. contradiction.
    + rewrite IH. split; intros ND.
      * constructor; [| exact ND]. intros Hin.
        assert (T : existsb (String.eqb n) rest = true).
        { apply existsb_exists. exists n. split; [exact Hin | apply String.eqb_refl]. }
        congruence.
      * now inversion ND.
Qed.

Lemma all_known (names : list string) :
  find (fun n => negb (existsb (String.eqb n) argument_names)) names = None
  <-> forall n, In n names -> In n argument_names.
Proof.
  split.
  - intros H n Hn. pose proof (find_none _ _ H n Hn) as K. cbv beta in K.
    apply negb_false_iff in K. apply existsb_exists in K.
    destruct K as [x [Hx E]]. apply String.eqb_eq in E. now subst x.
  - intros H. destruct (find _ names) as [n |] eqn:F; [| reflexivity].
    apply find_some in F. destruct F as [Hn K].
    apply negb_true_iff in K. specialize (H n Hn).
    assert (T : existsb (String.eqb n) argument_names = true).
    { apply existsb_exists. exists n. split; [exact H | apply String.eqb_refl]. }
    congruence.
Qed.

Lemma coerce_String_items_spec (items : list input_value) :
  (exists l, coerce_String_items items = Some l) <->
  Forall (fun x => exists s : string, x = V_string s) items.
Proof.
  induction items as [| v items IH]; simpl.
  - split; [constructor | now exists []].
  - split.
    + intros [l E]. destruct v; simpl in E; try discriminate E.
      destruct (coerce_String_items items) as [l' |]; [| discriminate E].
      constructor; [now eexists | apply IH; now eexists].
    + intros H. inversion H as [| ? ? [s ->] H']; subst. simpl.
      apply IH in H'. destruct H' as [l' ->]. now eexists.
Qed.

Lemma coerce_String_spec (v : input_value) :
  (exists a, coerce_String v = Some a) <-> string_or_null v.
Proof.
  unfold string_or_null. split.
  - intros [a E]. destruct v; simpl in E; try discriminate E;
      [now left | right; now eexists].
  - intros [-> | [s ->]]; simpl; now eexists.
Qed.

Lemma coerce_Boolean_spec (v : input_value) :
  (exists a, coerce_Boolean v = Some a) <-> boolean_or_null v.
Proof.
  unfold boolean_or_null. split.
  - intros [a E]. destruct v; simpl in E; try discriminate E;
      [now left | right; now eexists].
  - intros [-> | [b ->]]; simpl; now eexists.
Qed.

Lemma coerce_String_list_spec (v : input_value) :
  (exists a, coerce_String_list v = Some a) <-> strings_or_null v.
Proof.
  unfold strings_or_null. split.
  - intros [a E]. destruct v; simpl in E; try discriminate E.
    + now left.
    + right. left. now eexists.
    + right. right. exists items. split; [reflexivity |].
      apply coerce_String_items_spec.
      destruct (coerce_String_items items) as [l |]; [now eexists | discriminate E].
  - intros [-> | [[s ->] | [items [-> H]]]]; simpl; try (now eexists).
    apply coerce_String_items_spec in H. destruct H as [l ->]. now eexists.
Qed.

(** An argument passes when it is left out or its value coerces. *)
Lemma coerce_argument_passes {A : Type}
      (coerce : input_value -> option (argument A))
      (name : string) (args : arguments) :
  NoDup (map fst args) ->
  ((exists a, coerce_argument coerce name args = inr a) <->
   (forall v, In (name, v) args -> exists a, coerce v = Some a)).
Proof.
  intros ND. unfold coerce_argument. split.
  - intros [a E] v Hin. rewrite (lookup_NoDup _ _ _ ND Hin) in E.
    destruct (coerce v) as [x |]; [now eexists | discriminate E].
  - intros H. destruct (lookup name args) as [v |] eqn:L; [| now eexists].
    destruct (H v (lookup_In _ _ _ L)) as [a ->]. now eexists.
Qed.

Lemma check_arguments_inr (args : arguments) (r : sendMessage_request) :
  check_arguments args = inr r <->
  NoDup (map fst args) /\
  (forall n, In n (map fst args) -> In n argument_names) /\
  coerce_argument coerce_String "text" args = inr (req_text r) /\
  coerce_argument coerce_String "author" args = inr (req_author r) /\
  coerce_argument coerce_String "channel" args = inr (req_channel r) /\
  coerce_argument coerce_Boolean "important" args = inr (req_important r) /\
  coerce_argument coerce_String_list "tags" args = inr (req_tags r).
Proof.
  unfold check_arguments. rewrite <- all_known, <- first_duplicate_NoDup.
  destruct (find _ (map fst args)) as [n |].
  { split; [discriminate | intros [_ [H _]]; discriminate H]. }
  destruct (first_duplicate (map fst args)) as [n |].
  { split; [discriminate | intros [H _]; discriminate H]. }
  destruct (coerce_argument coerce_String "text" args) as [e | t];
    destruct (coerce_argument coerce_String "author" args) as [e1 | a];
    destruct (coerce_argument coerce_String "channel" args) as [e2 | c];
    destruct (coerce_argument coerce_Boolean "important" args) as [e3 | i];
    destruct (coerce_argument coerce_String_list "tags" args) as [e4 | g];
    (split;
     [ intros E; try discriminate E; injection E as <-; repeat split
     | intros [_ [_ [Ht [Ha [Hc [Hi Hg]]]]]];
       try discriminate Ht; try discriminate Ha; try discriminate Hc;
       try discriminate Hi; try discriminate Hg;
       injection Ht as ->; injection Ha as ->; injection Hc as ->;
       injection Hi as ->; injection Hg as ->; now destruct r ]).
Qed.

(** Arguments that pass are handed to the resolver as a request with
    the given [text]. *)
Lemma check_arguments_acceptable (args : arguments) (s : string) :
  acceptable args ->
  In ("text", V_string s) args ->
  exists a c i g,
    check_arguments args = inr (mk_sendMessage_request (Given s) a c i g).
Proof.
  intros (ND & K & _ & Ha & Hc & Hi & Hg) Hs.
  destruct (proj2 (coerce_argument_passes coerce_String "author" args ND))
    as [a Ea].
  { intros v Hin. apply coerce_String_spec. now apply Ha. }
  destruct (proj2 (coerce_argument_passes coerce_String "channel" args ND))
    as [c Ec].
  { intros v Hin. apply coerce_String_spec. now apply Hc. }
  destruct (proj2 (coerce_argument_passes coerce_Boolean "important" args ND))
    as [i Ei].
  { intros v Hin. apply coerce_Boolean_spec. now apply Hi. }
  destruct (proj2 (coerce_argument_passes coerce_String_list "tags" args ND))
    as [g Eg].
  { intros v Hin. apply coerce_String_list_spec. now apply Hg. }
  exists a, c, i, g. apply check_arguments_inr. cbn [req_text req_author
    req_channel req_important req_tags].
  split; [exact ND |]. split; [exact K |].
  split; [| split; [exact Ea | split; [exact Ec | split; [exact Ei | exact Eg]]]].
  unfold coerce_argument. now rewrite (lookup_NoDup _ _ _ ND Hs).
Qed.

Lemma check_arguments_passed (args : arguments) (r : sendMessage_request)
      (t : string) :
  check_arguments args = inr r -> req_text r = Given t -> acceptable args.
Proof.
  intros C T. apply check_arguments_inr in C.
  destruct C as (ND & K & Ht & Ha & Hc & Hi & Hg).
  split; [exact ND |]. split; [exact K |]. split.
  { exists t. rewrite T in Ht. unfold coerce_argument in Ht.
    destruct (lookup "text" args) as [v |] eqn:L; [| discriminate Ht].
    apply lookup_In in L.
    destruct v; simpl in Ht; try discriminate Ht.
    injection Ht as ->. exact L. }
  split; [| split; [| split]]; intros v Hin.
  - apply coerce_String_spec.
    apply (proj1 (coerce_argument_passes coerce_String "author" args ND));
      [eexists; exact Ha | exact Hin].
  - apply coerce_String_spec.
    apply (proj1 (coerce_argument_passes coerce_String "channel" args ND));
      [eexists; exact Hc | exact Hin].
  - apply coerce_Boolean_spec.
    apply (proj1 (coerce_argument_passes coerce_Boolean "important" args ND));
      [eexists; exact Hi | exact Hin].
  - apply coerce_String_list_spec.
    apply (proj1 (coerce_argument_passes coerce_String_list "tags" args ND));
      [eexists; exact Hg | exact Hin].
Qed.

Lemma sendMessage_field_passes (args : arguments) (w : World) :
  is_error (fst (execute_sendMessage_field args w)) = false <->
  acceptable args.
Proof.
  unfold execute_sendMessage_field. split.
  - destruct (check_arguments args) as [e | r] eqn:C; [discriminate |].
    unfold execute_sendMessage, coerce_sendMessage.
    destruct (req_text r) as [| | t] eqn:T; try discriminate. intros _.
    exact (check_arguments_passed args r t C T).
  - intros A. pose proof A as (_ & _ & [s Hs] & _).
    destruct (check_arguments_acceptable args s A Hs) as (a & c & i & g & C).
    rewrite C. reflexivity.
Qed.

(** What the executor refuses, by example: a [text] that is not a
    string, an [important] that is not a boolean, a [null] among the
    [tags], an argument [typeDefs] does not declare, an argument given
    twice, no [text], and [null] for [text]. *)
Example sendMessage_rejects_a_number_for_text :
  fst (execute_sendMessage_field [("text", V_int 123)] (boot 0))
  = errors (value_of_wrong_type "text").
Proof. reflexivity. Qed.

Example sendMessage_rejects_a_string_for_important :
  fst (execute_sendMessage_field
         [("text", V_string "hi"); ("important", V_string "yes")] (boot 0))
  = errors (value_of_wrong_type "important").
Proof. reflexivity. Qed.

Example sendMessage_rejects_a_null_tag :
  fst (execute_sendMessage_field null_tag_arguments (boot 0))
  = errors (value_of_wrong_type "tags").
Proof. reflexivity. Qed.

Example sendMessage_rejects_an_unknown_argument :
  fst (execute_sendMessage_field
         [("text", V_string "hi"); ("colour", V_string "red")] (boot 0))
  = errors (unknown_argument "colour").
Proof. reflexivity. Qed.

Example sendMessage_rejects_a_repeated_argument :
  fst (execute_sendMessage_field
         [("text", V_string "hi"); ("text", V_string "ho")] (boot 0))
  = errors (duplicated_argument "text").
Proof. reflexivity. Qed.

Example sendMessage_rejects_no_arguments :
  fst (execute_sendMessage_field [] (boot 0))
  = errors (required_argument_not_provided "text").
Proof. reflexivity. Qed.

Example sendMessage_rejects_null_text :
  fst (execute_sendMessage_field [("text", V_null)] (boot 0))
  = errors (null_for_non_null_argument "text").
Proof. reflexivity. Qed.

(** C3, amended. [sendMessage] fails exactly when its arguments do not
    pass [typeDefs]: [text] is left out, [null] or not a string;
    [author] or [channel] is given and is neither [null] nor a string;
    [important] is given and is neither [null] nor a boolean; [tags] is
    given and is neither [null], a string nor a list of strings; an
    argument is given that [typeDefs] does not declare, or one is given
    twice.  The failure is an error response that leaves the state of
    the server as it was.  Every other request is accepted, whatever
    string its [text] is, the empty string included, and the [text] comes
    back in the Message. *)
Theorem sendMessage_fails_iff_arguments_invalid
        (args : arguments) (w : World) :
  (is_error (fst (execute_sendMessage_field args w)) = true
   <-> ~ acceptable args) /\
  (is_error (fst (execute_sendMessage_field args w)) = false
   <-> acceptable args) /\
  (is_error (fst (execute_sendMessage_field args w)) = true ->
   snd (execute_sendMessage_field args w) = w) /\
  (forall s : string,
      acceptable args ->
      In ("text", V_string s) args ->
      exists (m : Message) (r : sendMessage_request),
        check_arguments args = inr r /\
        req_text r = Given s /\
        execute_sendMessage_field args w = execute_sendMessage r w /\
        fst (execute_sendMessage_field args w) = data m /\
        text m = s).
Proof.
  pose proof (sendMessage_field_passes args w) as L.
  split; [| split; [exact L | split]].
  - split.
    + intros E A. apply L in A. congruence.
    + intros NA.
      destruct (is_error (fst (execute_sendMessage_field args w)));
        [reflexivity |].
      exfalso. apply NA, L. reflexivity.
  - unfold execute_sendMessage_field.
    destruct (check_arguments args) as [e | r]; [reflexivity |].
    unfold execute_sendMessage.
    destruct (coerce_sendMessage r); [reflexivity | discriminate].
  - intros s A Hs.
    destruct (check_arguments_acceptable args s A Hs) as (a & c & i & g & C).
    unfold execute_sendMessage_field. rewrite C.
    eexists. eexists. split; [reflexivity |]. split; [reflexivity |].
    split; [reflexivity |]. split; reflexivity.
Qed.

(** ** Runs of the event loop *)

Lemma issued_ids_snoc (w : World) (tp : string) (p : payload) :
  flat_map issued_id (published w ++ [(tp, p)]) =
  (issued_ids w ++ issued_id (tp, p))%list.
Proof.
  unfold issued_ids. rewrite flat_map_app. simpl. now rewrite app_nil_r.
Qed.

(** An event that draws an [id] hands out the counter's value and
    advances the counter. *)
Lemma step_issuing (w : World) (e : event) :
  issues e = true ->
  idCounter (step w e) = JsNumber.add (idCounter w) 1 /\
  issued_ids (step w e) = (issued_ids w ++ [JsNumber.String (idCounter w)])%list.
Proof.
  destruct e as [r | | | | | | |]; simpl; try discriminate.
  - unfold execute_sendMessage, coerce_sendMessage.
    destruct (req_text r) as [| | t]; try discriminate. intros _.
    split; [reflexivity |]. unfold issued_ids at 1. simpl published.
    now rewrite issued_ids_snoc.
  - intros _. split; [reflexivity |]. unfold issued_ids at 1. simpl published.
    now rewrite issued_ids_snoc.
Qed.

(** Any other event leaves the counter and the issued [id]s alone. *)
Lemma step_not_issuing (w : World) (e : event) :
  issues e = false ->
  idCounter (step w e) = idCounter w /\ issued_ids (step w e) = issued_ids w.
Proof.
  destruct e as [r | | x | x y | f | i | i | t]; simpl; try discriminate.
  - unfold execute_sendMessage, coerce_sendMessage.
    destruct (req_text r) as [| | t]; try discriminate; intros _; split; reflexivity.
  - intros _. split; [reflexivity |]. unfold issued_ids at 1. simpl published.
    rewrite issued_ids_snoc. simpl. now rewrite app_nil_r.
  - intros _. split; [reflexivity |]. unfold issued_ids at 1. simpl published.
    rewrite issued_ids_snoc. simpl. now rewrite app_nil_r.
  - intros _. unfold Subscription_subscribe.
    destruct (PubSub.asyncIterator (topic_of f) (pubsub w)). split; reflexivity.
  - intros _. split; reflexivity.
  - intros _. split; reflexivity.
  - intros _. split; reflexivity.
Qed.

Lemma Zseq_S (k : nat) : Zseq (S k) = (Zseq k ++ [Z.of_nat k + 1])%list.
Proof.
  unfold Zseq. rewrite seq_S, map_app. simpl map. do 3 f_equal. lia.
Qed.

Lemma Zseq_length (k : nat) : length (Zseq k) = k.
Proof. unfold Zseq. now rewrite length_map, length_seq. Qed.

Lemma after_issues_step (k : nat) (w : World) (e : event) :
  after_issues k w ->
  after_issues (if issues e then S k else k) (step w e).
Proof.
  intros [Hc Hi]. destruct (issues e) eqn:E.
  - destruct (step_issuing w e E) as [Hc' Hi']. split.
    + rewrite Hc', Hc. rewrite add_one_min; unfold JsNumber.limit; lia.
    + rewrite Hi', Hi, Zseq_S, map_app. simpl map. do 2 f_equal.
      unfold nth_issue. rewrite Hc. f_equal. lia.
  - destruct (step_not_issuing w e E) as [Hc' Hi']. split; congruence.
Qed.

Lemma after_issues_run (evs : list event) (k : nat) (w : World) :
  after_issues k w -> after_issues (k + count_issues evs) (run w evs).
Proof.
  revert k w. induction evs as [| e evs IH]; intros k w H.
  - unfold count_issues. simpl. now rewrite Nat.add_0_r.
  - simpl run. apply (after_issues_step k w e) in H.
    apply IH in H. unfold count_issues in *. simpl filter.
    destruct (issues e); simpl length.
    + now rewrite Nat.add_succ_r.
    + assumption.
Qed.

Lemma after_issues_boot (t0 : Z) : after_issues 0 (boot t0).
Proof. split; reflexivity. Qed.

(** The closed form of a run from the start of the process. *)
Lemma run_from_boot (t0 : Z) (evs : list event) :
  after_issues (count_issues evs) (run (boot t0) evs).
Proof. exact (after_issues_run evs 0 (boot t0) (after_issues_boot t0)). Qed.

Lemma issued_ids_length (t0 : Z) (evs : list event) :
  length (issued_ids (run (boot t0) evs)) = count_issues evs.
Proof.
  destruct (run_from_boot t0 evs) as [_ H].
  now rewrite H, length_map, Zseq_length.
Qed.

Lemma Zseq_bounds (k : nat) (i : Z) : In i (Zseq k) -> 1 <= i <= Z.of_nat k.
Proof.
  unfold Zseq. intros H. apply in_map_iff in H. destruct H as [j [<- Hj]].
  apply in_seq in Hj. lia.
Qed.

Lemma StronglySorted_snoc {A : Type} (R : A -> A -> Prop) (l : list A) (y : A) :
  StronglySorted R l -> Forall (fun x => R x y) l ->
  StronglySorted R (l ++ [y]).
Proof.
  induction 1 as [| x l Hs IH Hx]; intros Hy; simpl.
  - repeat constructor.
  - inversion Hy as [| ? ? Hxy Hl]; subst. constructor.
    + now apply IH.
    + apply Forall_app. split; [assumption | now constructor].
Qed.

Lemma Zseq_sorted (k : nat) : StronglySorted Z.lt (Zseq k).
Proof.
  induction k as [| k IH].
  - constructor.
  - rewrite Zseq_S. apply StronglySorted_snoc; [assumption |].
    apply Forall_forall. intros i Hi. apply Zseq_bounds in Hi. lia.
Qed.

Lemma Zseq_NoDup (k : nat) : NoDup (Zseq k).
Proof.
  unfold Zseq. apply Injective_map_NoDup; [| apply seq_NoDup].
  intros x y. apply Nat2Z.inj.
Qed.

Lemma map_nth_issue_below (k : nat) :
  Z.of_nat k <= JsNumber.limit ->
  map nth_issue (Zseq k) = map JsNumber.String (Zseq k).
Proof.
  intros Hk. apply map_ext_in. intros i Hi. apply Zseq_bounds in Hi.
  unfold nth_issue. f_equal. lia.
Qed.

(** C2 as stated fails: a schedule of [2^53 + 1] ticks of the message
    generator hands out the [id] ["9007199254740992"] twice: at [2^53] the counter's successor
    is not a binary64 and [idCounter++] leaves the counter where it is. *)
Lemma ids_repeat_past_limit :
  ~ NoDup (issued_ids (run (boot 0) (message_ticks (S (S ticks_to_limit))))).
Proof.
  destruct (run_from_boot 0 (message_ticks (S (S ticks_to_limit)))) as [_ H].
  rewrite H. clear H.
  assert (Hc : forall n, count_issues (message_ticks n) = n).
  { induction n as [| n IH]; [reflexivity |].
    unfold count_issues, message_ticks in *. simpl. now rewrite IH. }
  rewrite Hc. clear Hc.
  assert (Hn : Z.of_nat ticks_to_limit = JsNumber.limit - 1).
  { unfold ticks_to_limit. apply Z2Nat.id. unfold JsNumber.limit. lia. }
  generalize dependent ticks_to_limit. intros n Hn.
  rewrite Zseq_S, Zseq_S, !map_app. cbn [map].
  assert (E1 : nth_issue (Z.of_nat n + 1) = JsNumber.String JsNumber.limit).
  { unfold nth_issue. f_equal. lia. }
  assert (E2 : nth_issue (Z.of_nat (S n) + 1) = JsNumber.String JsNumber.limit).
  { unfold nth_issue. f_equal. lia. }
  rewrite E1, E2, <- app_assoc. simpl app.
  intros ND. apply NoDup_remove_2 in ND. apply ND.
  apply in_or_app. right. left. reflexivity.
Qed.

(** C2, amended. In every run from the start of the process, whatever
    the order of [sendMessage] calls, generator ticks and other events,
    and as long as no more than [2^53] [id]s have been handed out, the
    [id]s issued are the numerals of [1; 2; ...; k] in this order: they
    start at [1], increase strictly as numbers, and none occurs twice;
    the counter reads [min (k + 1) 2^53], it has never gone back. *)
Theorem issued_ids_strictly_increasing (t0 : Z) (evs : list event) :
  Z.of_nat (count_issues evs) <= JsNumber.limit ->
  issued_ids (run (boot t0) evs)
    = map JsNumber.String (Zseq (count_issues evs)) /\
  map Number_of_id (issued_ids (run (boot t0) evs))
    = map Some (Zseq (count_issues evs)) /\
  StronglySorted Z.lt (Zseq (count_issues evs)) /\
  NoDup (issued_ids (run (boot t0) evs)) /\
  idCounter (run (boot t0) evs)
    = Z.min (Z.of_nat (count_issues evs) + 1) JsNumber.limit.
Proof.
  intros Hk. destruct (run_from_boot t0 evs) as [Hc Hi].
  rewrite map_nth_issue_below in Hi by assumption.
  split; [assumption |]. split; [| split; [| split]].
  - rewrite Hi, map_map. apply map_ext. intros n. apply Number_of_String.
  - apply Zseq_sorted.
  - rewrite Hi. apply Injective_map_NoDup; [| apply Zseq_NoDup].
    intros x y. apply String_inj.
  - rewrite Hc. f_equal. lia.
Qed.

Lemma issued_ids_strictly_increasing_witness :
  issued_ids (run (boot 0)
                  [Ev_sendMessage empty_text_request; Ev_message_timer;
                   Ev_status_timer (1 # 2); Ev_message_timer])
    = ["1"; "2"; "3"].
Proof.
  apply (issued_ids_strictly_increasing 0
           [Ev_sendMessage empty_text_request; Ev_message_timer;
            Ev_status_timer (1 # 2); Ev_message_timer]).
  vm_compute. discriminate.
Defined.

(** ** Freshness of the [id] of [sendMessage] *)

Lemma count_issues_message_ticks (n : nat) :
  count_issues (message_ticks n) = n.
Proof.
  induction n as [| n IH]; [reflexivity |].
  unfold count_issues, message_ticks in *. simpl. now rewrite IH.
Qed.

(** As long as fewer than [2^53] [id]s have been handed out, the value
    the counter holds has not been handed out yet. *)
Lemma counter_value_is_fresh (t0 : Z) (evs : list event) :
  Z.of_nat (count_issues evs) < JsNumber.limit ->
  ~ In (JsNumber.String (idCounter (run (boot t0) evs)))
       (issued_ids (run (boot t0) evs)) /\
  NoDup (issued_ids (run (boot t0) evs) ++
         [JsNumber.String (idCounter (run (boot t0) evs))])%list.
Proof.
  intros Hk. destruct (run_from_boot t0 evs) as [Hc Hi].
  rewrite map_nth_issue_below in Hi by lia.
  rewrite Hc, Hi.
  assert (F : ~ In (JsNumber.String
                      (Z.min (1 + Z.of_nat (count_issues evs)) JsNumber.limit))
                   (map JsNumber.String (Zseq (count_issues evs)))).
  { intros H. apply in_map_iff in H. destruct H as [x [E Hx]].
    apply String_inj in E. apply Zseq_bounds in Hx. lia. }
  split; [exact F |].
  apply NoDup_app; [| repeat constructor; intros [] |].
  - apply Injective_map_NoDup; [| apply Zseq_NoDup].
    intros x y. apply String_inj.
  - intros x Hx [<- | []]. now apply F.
Qed.

(** C1 as stated fails: the [id] of the answer is not always a value
    the counter has not handed out before.  After [2^53] ticks of the
    message generator the counter holds [2^53], which the last tick has
    already given out; [sendMessage] gives it out again, and leaves the
    counter where it is. *)
Lemma sendMessage_id_is_not_fresh_at_limit :
  exists (m : Message) (w' : World),
    execute_sendMessage hi_request
      (run (boot 0) (message_ticks (S ticks_to_limit))) = (data m, w') /\
    In (id m) (issued_ids (run (boot 0) (message_ticks (S ticks_to_limit)))) /\
    idCounter w'
      = idCounter (run (boot 0) (message_ticks (S ticks_to_limit))).
Proof.
  destruct (run_from_boot 0 (message_ticks (S ticks_to_limit))) as [Hc Hi].
  rewrite count_issues_message_ticks in Hc, Hi.
  assert (Hn : Z.of_nat ticks_to_limit = JsNumber.limit - 1).
  { unfold ticks_to_limit. apply Z2Nat.id. unfold JsNumber.limit. lia. }
  revert Hc Hi Hn. generalize ticks_to_limit. intros n.
  generalize (run (boot 0) (message_ticks (S n))). intros w Hc Hi Hn.
  assert (Hl : idCounter w = JsNumber.limit) by lia.
  eexists. eexists. split; [reflexivity |]. split.
  - change (In (JsNumber.String (idCounter w)) (issued_ids w)).
    rewrite Hi, Zseq_S, map_app, Hl. apply in_or_app. right. left.
    unfold nth_issue. f_equal. lia.
  - change (JsNumber.add (idCounter w) 1 = idCounter w).
    rewrite Hl. apply add_one_at_limit.
Qed.

(** C1, amended. Whatever [author], [channel], [important] and [tags]
    the caller supplies, [sendMessage(text = t)] answers with a Message
    whose [text] is [t], whose [author], [channel], [important] and
    [tags] are ["user"], ["general"], [false] and [[]], whose [id] is the
    numeral of the value this call draws from the counter by
    [idCounter++] (the counter then holds that value plus one, as a
    Number) and whose [createdAt] is the clock's reading at that moment;
    the one payload it publishes on [MESSAGE_ADDED], which every
    subscriber of that topic receives at the end of its queue, is that
    same Message.  In a run of the server that has handed out fewer than
    [2^53] [id]s before the call, the [id] is fresh: no Message published
    before carries it, and it is the one [id] the call adds to those
    handed out, which stay free of duplicates. *)
Theorem sendMessage_round_trip
        (t : string) (a c : argument string) (i : argument bool)
        (g : argument (list string)) (w : World) :
  exists (m : Message) (w' : World),
    execute_sendMessage (mk_sendMessage_request (Given t) a c i g) w
      = (data m, w') /\
    text m = t /\
    author m = "user" /\
    channel m = "general" /\
    important m = false /\
    tags m = [] /\
    id m = JsNumber.String (idCounter w) /\
    idCounter w' = JsNumber.add (idCounter w) 1 /\
    (0 <= idCounter w < JsNumber.limit -> idCounter w' = idCounter w + 1) /\
    createdAt m = JsDate.toISOString (now w) /\
    published w' = (published w ++ [(MESSAGE_ADDED, messageAdded m)])%list /\
    pubsub w' = PubSub.publish MESSAGE_ADDED (messageAdded m) (pubsub w) /\
    (forall s : PubSub.subscription,
        In s (PubSub.subscriptions (pubsub w)) ->
        PubSub.topic s = MESSAGE_ADDED ->
        In (PubSub.mkSubscription (PubSub.sid s) MESSAGE_ADDED
                                  (PubSub.queue s ++ [messageAdded m])%list)
           (PubSub.subscriptions (pubsub w'))) /\
    (forall (t0 : Z) (evs : list event),
        w = run (boot t0) evs ->
        Z.of_nat (count_issues evs) < JsNumber.limit ->
        ~ In (id m) (issued_ids w) /\
        issued_ids w' = (issued_ids w ++ [id m])%list /\
        NoDup (issued_ids w')).
Proof.
  eexists. eexists.
  split; [reflexivity |].
  do 7 (split; [reflexivity |]).
  split; [intros H; cbn [idCounter]; now apply add_one_below_limit |].
  do 3 (split; [reflexivity |]).
  split; [intros s Hin Htp; simpl; now apply publish_delivers |].
  intros t0 evs Hw Hk.
  destruct (counter_value_is_fresh t0 evs Hk) as [F N].
  rewrite <- Hw in F, N.
  split; [exact F |].
  match goal with
  | |- issued_ids ?x = _ /\ _ =>
      assert (E : issued_ids x
                  = (issued_ids w ++ [JsNumber.String (idCounter w)])%list)
        by (refine (issued_ids_snoc w MESSAGE_ADDED (messageAdded _)))
  end.
  split; [exact E |]. rewrite E. exact N.
Qed.

(** ** The text of a generated Message *)

Lemma last_message_snoc (w : World) (tp : string) (m : Message)
      (l : list (string * payload)) :
  published w = (l ++ [(tp, messageAdded m)])%list ->
  last_message w = Some m.
Proof.
  intros E. unfold last_message. rewrite E, map_app. simpl map.
  now rewrite last_last.
Qed.

(** The Message a tick of the message generator publishes: its [id] is
    the counter's value before [idCounter++], its text shows the value
    after. *)
Lemma message_timer_last_message (w : World) :
  last_message (step w Ev_message_timer) =
  Some {| id := JsNumber.String (idCounter w);
          text := text_prefix ++ JsNumber.String (JsNumber.add (idCounter w) 1);
          createdAt := JsDate.toISOString (now w);
          author := "server";
          channel := "news";
          important := false;
          tags := ["auto"] |}.
Proof. apply (last_message_snoc _ MESSAGE_ADDED _ (published w)). reflexivity. Qed.

Lemma text_prefix_inj (a b : string) :
  text_prefix ++ a = text_prefix ++ b -> a = b.
Proof. unfold text_prefix. simpl. intros E. now injection E. Qed.

Lemma counter_after_ticks_to_limit :
  idCounter (run (boot 0) (message_ticks ticks_to_limit)) = JsNumber.limit.
Proof.
  destruct (run_from_boot 0 (message_ticks ticks_to_limit)) as [H _].
  rewrite H. clear H.
  assert (Hc : forall n, count_issues (message_ticks n) = n).
  { induction n as [| n IH]; [reflexivity |].
    unfold count_issues, message_ticks in *. simpl. now rewrite IH. }
  rewrite Hc. unfold ticks_to_limit.
  rewrite Z2Nat.id by (unfold JsNumber.limit; lia). lia.
Qed.

(** C9 as stated fails: once the counter has reached [2^53], which
    [2^53 - 1] ticks bring about, the next tick of the message generator
    publishes a Message whose text shows its own [id], not the [id] plus
    one. *)
Lemma text_shows_own_id_at_limit :
  exists m : Message,
    last_message (step (run (boot 0) (message_ticks ticks_to_limit))
                       Ev_message_timer) = Some m /\
    text m = text_prefix ++ id m /\
    ~ text_shows_id_plus_one m.
Proof.
  eexists. split; [apply message_timer_last_message |].
  rewrite counter_after_ticks_to_limit. cbn [id text].
  rewrite add_one_at_limit. split; [reflexivity |].
  intros [n [Hn Ht]]. cbn [id text] in Hn, Ht.
  rewrite Number_of_String in Hn. injection Hn as <-.
  apply text_prefix_inj, String_inj in Ht. lia.
Qed.

(** C9, amended. In every tick of the message generator that runs while
    the counter is below [2^53], the number shown in the published text
    is the Message's own [id] plus one, the counter being read for the
    text after [idCounter++] has produced the [id]; so the text never
    shows the [id] itself. *)
Theorem message_generator_text_shows_id_plus_one
        (t0 : Z) (evs : list event) :
  idCounter (run (boot t0) evs) < JsNumber.limit ->
  exists m : Message,
    last_message (step (run (boot t0) evs) Ev_message_timer) = Some m /\
    id m = JsNumber.String (idCounter (run (boot t0) evs)) /\
    text_shows_id_plus_one m /\
    text m <> text_prefix ++ id m.
Proof.
  intros Hlt. destruct (run_from_boot t0 evs) as [Hc _].
  set (w := run (boot t0) evs) in *.
  assert (Hpos : 0 <= idCounter w < JsNumber.limit) by lia.
  eexists. split; [apply message_timer_last_message |].
  cbn [id text]. rewrite add_one_below_limit by assumption.
  split; [reflexivity |]. split.
  - exists (idCounter w). split; [apply Number_of_String | reflexivity].
  - intros E. apply text_prefix_inj, String_inj in E. lia.
Qed.

Lemma message_generator_text_shows_id_plus_one_witness :
  exists m : Message,
    last_message (step (run (boot 0) [Ev_message_timer]) Ev_message_timer)
      = Some m /\
    id m = "2" /\
    text m = "Server message #3".
Proof.
  destruct (message_generator_text_shows_id_plus_one 0 [Ev_message_timer])
    as [m [Hm [Hid [_ _]]]].
  - vm_compute. reflexivity.
  - exists m. split; [exact Hm |]. split; [exact Hid |].
    vm_compute in Hm. injection Hm as <-. reflexivity.
Defined.

(** ** Delivery order *)

Lemma find_map_sid (g : PubSub.subscription -> PubSub.subscription) (i : nat)
      (l : list PubSub.subscription) :
  (forall s, PubSub.sid (g s) = PubSub.sid s) ->
  List.find (fun s => Nat.eqb (PubSub.sid s) i) (map g l) =
  option_map g (List.find (fun s => Nat.eqb (PubSub.sid s) i) l).
Proof.
  intros Hg. induction l as [| s l IH]; simpl; [reflexivity |].
  rewrite Hg. destruct (Nat.eqb (PubSub.sid s) i); [reflexivity | exact IH].
Qed.

Lemma enqueue_sid (tp : string) (p : payload) (s : PubSub.subscription) :
  PubSub.sid (PubSub.enqueue tp p s) = PubSub.sid s.
Proof. unfold PubSub.enqueue. now destruct (String.eqb (PubSub.topic s) tp). Qed.

Lemma pop_sid (j : nat) (s : PubSub.subscription) :
  PubSub.sid (PubSub.pop j s) = PubSub.sid s.
Proof. unfold PubSub.pop. now destruct (Nat.eqb (PubSub.sid s) j). Qed.

Lemma find_sid (i : nat) (r : PubSub.t) (s : PubSub.subscription) :
  PubSub.find i r = Some s -> PubSub.sid s = i.
Proof.
  unfold PubSub.find. intros H. apply find_some in H.
  now apply Nat.eqb_eq.
Qed.

Lemma find_publish (tp : string) (p : payload) (i : nat) (r : PubSub.t) :
  PubSub.find i (PubSub.publish tp p r) =
  option_map (PubSub.enqueue tp p) (PubSub.find i r).
Proof. apply find_map_sid, enqueue_sid. Qed.

Lemma find_unsubscribe_other (i j : nat) (r : PubSub.t) :
  j <> i -> PubSub.find i (PubSub.unsubscribe j r) = PubSub.find i r.
Proof.
  intros Hji. unfold PubSub.find, PubSub.unsubscribe. simpl.
  induction (PubSub.subscriptions r) as [| s l IH]; simpl; [reflexivity |].
  destruct (Nat.eqb_spec (PubSub.sid s) j) as [E | NE]; simpl.
  - destruct (Nat.eqb_spec (PubSub.sid s) i); [congruence | exact IH].
  - destruct (Nat.eqb (PubSub.sid s) i); [reflexivity | exact IH].
Qed.

Lemma find_unsubscribe_same (i : nat) (r : PubSub.t) :
  PubSub.find i (PubSub.unsubscribe i r) = None.
Proof.
  unfold PubSub.find, PubSub.unsubscribe. simpl.
  induction (PubSub.subscriptions r) as [| s l IH]; simpl; [reflexivity |].
  destruct (Nat.eqb_spec (PubSub.sid s) i) as [E | NE]; simpl; [exact IH |].
  destruct (Nat.eqb_spec (PubSub.sid s) i); [contradiction | exact IH].
Qed.

Lemma find_asyncIterator_old (tp : string) (i : nat) (r : PubSub.t) :
  (i < PubSub.next_sid r)%nat ->
  PubSub.find i (snd (PubSub.asyncIterator tp r)) = PubSub.find i r.
Proof.
  intros Hi. unfold PubSub.find, PubSub.asyncIterator. simpl.
  induction (PubSub.subscriptions r) as [| s l IH]; simpl.
  - destruct (Nat.eqb_spec (PubSub.next_sid r) i); [lia | reflexivity].
  - destruct (Nat.eqb (PubSub.sid s) i); [reflexivity | exact IH].
Qed.

Lemma find_asyncIterator_new (tp : string) (r : PubSub.t) :
  registry_wf r ->
  PubSub.find (PubSub.next_sid r) (snd (PubSub.asyncIterator tp r)) =
  Some (PubSub.mkSubscription (PubSub.next_sid r) tp []).
Proof.
  unfold registry_wf, PubSub.find, PubSub.asyncIterator. simpl.
  generalize (PubSub.next_sid r). intros n Hwf.
  induction Hwf as [| s l Hs Hl IH]; simpl.
  - now rewrite Nat.eqb_refl.
  - destruct (Nat.eqb_spec (PubSub.sid s) n); [lia | exact IH].
Qed.

(** The registry numbers its subscriptions: the invariant holds in
    every state the server reaches. *)
Lemma registry_wf_step (w : World) (e : event) :
  registry_wf (pubsub w) -> registry_wf (pubsub (step w e)).
Proof.
  unfold registry_wf. intros H.
  assert (Hmap : forall g, (forall s, PubSub.sid (g s) = PubSub.sid s) ->
            Forall (fun s => (PubSub.sid s < PubSub.next_sid (pubsub w))%nat)
                   (map g (PubSub.subscriptions (pubsub w)))).
  { intros g Hg. apply Forall_map. eapply Forall_impl; [| exact H].
    intros s Hs. simpl. now rewrite Hg. }
  destruct e as [r | | x | x y | f | i | i | t]; simpl.
  - unfold execute_sendMessage. destruct (coerce_sendMessage r); simpl.
    + exact H.
    + apply Hmap, enqueue_sid.
  - apply Hmap, enqueue_sid.
  - apply Hmap, enqueue_sid.
  - apply Hmap, enqueue_sid.
  - apply Forall_app. split.
    + eapply Forall_impl; [| exact H]. intros s Hs.
      apply Nat.lt_lt_succ_r, Hs.
    + repeat constructor.
  - unfold PubSub.next. destruct (PubSub.find i (pubsub w)) as [s |]; [| exact H].
    destruct (PubSub.queue s); [exact H |]. simpl. apply Hmap, pop_sid.
  - apply incl_Forall with (l1 := PubSub.subscriptions (pubsub w)); [| exact H].
    intros s Hs. apply filter_In in Hs. tauto.
  - exact H.
Qed.

Lemma registry_wf_run (evs : list event) (w : World) :
  registry_wf (pubsub w) -> registry_wf (pubsub (run w evs)).
Proof.
  revert w. induction evs as [| e evs IH]; intros w H; simpl; [exact H |].
  apply IH, registry_wf_step, H.
Qed.

Lemma next_sid_step (w : World) (e : event) :
  (PubSub.next_sid (pubsub w) <= PubSub.next_sid (pubsub (step w e)))%nat.
Proof.
  destruct e as [r | | x | x y | f | i | i | t]; simpl; try lia.
  - unfold execute_sendMessage. destruct (coerce_sendMessage r); simpl; lia.
  - unfold PubSub.next. destruct (PubSub.find i (pubsub w)) as [s |]; [| simpl; lia].
    destruct (PubSub.queue s); simpl; lia.
Qed.

Lemma find_subscribe_old (f : subscription_field) (i : nat) (w : World) :
  (i < PubSub.next_sid (pubsub w))%nat ->
  PubSub.find i (pubsub (step w (Ev_subscribe f))) = PubSub.find i (pubsub w).
Proof. intros Hi. exact (find_asyncIterator_old (topic_of f) i (pubsub w) Hi). Qed.

Lemma published_step_grows (w : World) (e : event) :
  exists l, published (step w e) = (published w ++ l)%list.
Proof.
  destruct e as [r | | x | x y | f | i | i | t]; simpl;
    try (eexists; reflexivity);
    try (exists []; now rewrite app_nil_r).
  unfold execute_sendMessage. destruct (coerce_sendMessage r); simpl.
  - exists []. now rewrite app_nil_r.
  - eexists; reflexivity.
Qed.

Lemma published_run_grows (evs : list event) (w : World) :
  exists l, published (run w evs) = (published w ++ l)%list.
Proof.
  revert w. induction evs as [| e evs IH]; intros w; simpl.
  - exists []. now rewrite app_nil_r.
  - destruct (published_step_grows w e) as [l1 H1].
    destruct (IH (step w e)) as [l2 H2].
    exists (l1 ++ l2)%list. now rewrite H2, H1, app_assoc.
Qed.

Lemma published_since_app (w0 w : World) (l : list (string * payload)) :
  published w = (published w0 ++ l)%list -> published_since w0 w = l.
Proof.
  intros E. unfold published_since. rewrite E.
  rewrite skipn_app, skipn_all, Nat.sub_diag. reflexivity.
Qed.

Lemma topic_payloads_app (tp : string) (l1 l2 : list (string * payload)) :
  topic_payloads tp (l1 ++ l2) =
  (topic_payloads tp l1 ++ topic_payloads tp l2)%list.
Proof. unfold topic_payloads. now rewrite filter_app, map_app. Qed.

(** Once a subscription is gone its number is not given out again, and
    nothing more is observed on it. *)
Lemma observed_unsubscribed (evs : list event) (i : nat) (w : World) :
  PubSub.find i (pubsub w) = None ->
  (i < PubSub.next_sid (pubsub w))%nat ->
  observed i w evs = [].
Proof.
  revert w. induction evs as [| e evs IH]; intros w Hf Hi; [reflexivity |].
  assert (Hi' : (i < PubSub.next_sid (pubsub (step w e)))%nat).
  { pose proof (next_sid_step w e). lia. }
  assert (Hf' : PubSub.find i (pubsub (step w e)) = None).
  { destruct e as [r | | x | x y | f | j | j | t];
      try (now rewrite find_subscribe_old); simpl;
      try (rewrite find_publish, Hf; reflexivity); try exact Hf.
    - unfold execute_sendMessage. destruct (coerce_sendMessage r); simpl.
      + exact Hf.
      + rewrite find_publish, Hf. reflexivity.
    - unfold PubSub.next. destruct (PubSub.find j (pubsub w)) as [s |]; [| exact Hf].
      destruct (PubSub.queue s); [exact Hf |]. simpl.
      unfold PubSub.find in *. simpl.
      rewrite find_map_sid by apply pop_sid. now rewrite Hf.
    - destruct (Nat.eq_dec j i) as [-> | NE].
      + apply find_unsubscribe_same.
      + now rewrite find_unsubscribe_other. }
  simpl. rewrite (IH _ Hf' Hi').
  destruct e; try reflexivity.
  destruct (Nat.eqb_spec i0 i) as [-> |]; [| reflexivity].
  unfold PubSub.next. now rewrite Hf.
Qed.

(** What a live subscription has delivered and still holds is what was
    queued plus what has been published on its topic, in that order. *)
Lemma observed_subscribed (evs : list event) (i : nat) (w : World)
      (s : PubSub.subscription) :
  PubSub.find i (pubsub w) = Some s ->
  (i < PubSub.next_sid (pubsub w))%nat ->
  exists rest,
    (observed i w evs ++ rest)%list =
    (PubSub.queue s ++
       topic_payloads (PubSub.topic s) (published_since w (run w evs)))%list.
Proof.
  revert w s. induction evs as [| e evs IH]; intros w s Hf Hi.
  - exists (PubSub.queue s). simpl.
    rewrite (published_since_app w w []) by now rewrite app_nil_r.
    unfold topic_payloads. simpl. now rewrite app_nil_r.
  - assert (Hi' : (i < PubSub.next_sid (pubsub (step w e)))%nat).
    { pose proof (next_sid_step w e). lia. }
    destruct (published_run_grows evs (step w e)) as [l2 H2].
    assert (Hpub : forall tp p,
      published (step w e) = (published w ++ [(tp, p)])%list ->
      pubsub (step w e) = PubSub.publish tp p (pubsub w) ->
      observed i w (e :: evs) = observed i (step w e) evs ->
      exists rest,
        (observed i w (e :: evs) ++ rest)%list =
        (PubSub.queue s ++
           topic_payloads (PubSub.topic s)
             (published_since w (run w (e :: evs))))%list).
    { intros tp p Ep Er Eo.
      assert (Hf' : PubSub.find i (pubsub (step w e))
                    = Some (PubSub.enqueue tp p s)).
      { rewrite Er, find_publish, Hf. reflexivity. }
      destruct (IH _ _ Hf' Hi') as [rest Hrest].
      exists rest. rewrite Eo, Hrest.
      simpl run.
      rewrite (published_since_app (step w e) _ l2) by exact H2.
      rewrite (published_since_app w _ ([(tp, p)] ++ l2)%list)
        by (rewrite H2, Ep, <- app_assoc; reflexivity).
      rewrite topic_payloads_app.
      unfold PubSub.enqueue. unfold topic_payloads at 2. simpl filter.
      rewrite (String.eqb_sym tp).
      destruct (String.eqb (PubSub.topic s) tp); simpl.
      - now rewrite <- app_assoc.
      - reflexivity. }
    assert (Hsame : forall s',
      published (step w e) = published w ->
      PubSub.find i (pubsub (step w e)) = Some s' ->
      PubSub.topic s' = PubSub.topic s ->
      forall pre, (pre ++ PubSub.queue s')%list = PubSub.queue s ->
      observed i w (e :: evs) = (pre ++ observed i (step w e) evs)%list ->
      exists rest,
        (observed i w (e :: evs) ++ rest)%list =
        (PubSub.queue s ++
           topic_payloads (PubSub.topic s)
             (published_since w (run w (e :: evs))))%list).
    { intros s' Ep Hf' Et pre Eq Eo.
      destruct (IH _ _ Hf' Hi') as [rest Hrest].
      exists rest. rewrite Eo, <- app_assoc, Hrest, <- Eq, <- app_assoc, Et.
      simpl run.
      rewrite (published_since_app (step w e) _ l2) by exact H2.
      rewrite (published_since_app w _ l2) by (rewrite H2, Ep; reflexivity).
      reflexivity. }
    destruct e as [r | | x | x y | f | j | j | t].
    + simpl in *. unfold execute_sendMessage in *.
      destruct (coerce_sendMessage r); simpl in *.
      * apply (Hsame s) with (pre := []); try reflexivity; assumption.
      * eapply Hpub; reflexivity.
    + eapply Hpub; reflexivity.
    + eapply Hpub; reflexivity.
    + eapply Hpub; reflexivity.
    + apply (Hsame s) with (pre := []); try reflexivity.
      now rewrite find_subscribe_old.
    + destruct (Nat.eq_dec j i) as [-> | NE].
      * pose proof (find_sid _ _ _ Hf) as Hsid.
        destruct (PubSub.queue s) as [| p q] eqn:Eq.
        -- apply (Hsame s) with (pre := []); try reflexivity.
           ++ simpl. unfold PubSub.next. rewrite Hf, Eq. simpl.
              destruct (pubsub w); exact Hf.
           ++ now rewrite Eq.
           ++ simpl. rewrite Nat.eqb_refl. unfold PubSub.next.
              now rewrite Hf, Eq.
        -- apply (Hsame (PubSub.pop i s)) with (pre := [p]); try reflexivity.
           ++ simpl. unfold PubSub.next. rewrite Hf, Eq. simpl.
              unfold PubSub.find in *. simpl.
              rewrite find_map_sid by apply pop_sid. now rewrite Hf.
           ++ unfold PubSub.pop. now destruct (Nat.eqb (PubSub.sid s) i).
           ++ unfold PubSub.pop. rewrite Hsid, Nat.eqb_refl. simpl.
              now rewrite Eq.
           ++ simpl. rewrite Nat.eqb_refl. unfold PubSub.next.
              now rewrite Hf, Eq.
      * apply (Hsame s) with (pre := []); try reflexivity.
        -- simpl. unfold PubSub.next.
           destruct (PubSub.find j (pubsub w)) as [s' |] eqn:Ej;
             [| destruct (pubsub w); exact Hf].
           destruct (PubSub.queue s'); [destruct (pubsub w); exact Hf |].
           simpl. unfold PubSub.find in *. simpl.
           rewrite find_map_sid by apply pop_sid. rewrite Hf. simpl.
           unfold PubSub.pop. pose proof (find_sid _ _ _ Hf) as Hsid.
           destruct (Nat.eqb_spec (PubSub.sid s) j); [congruence | reflexivity].
        -- simpl. destruct (Nat.eqb_spec j i); [contradiction | reflexivity].
    + destruct (Nat.eq_dec j i) as [-> | NE].
      * exists (PubSub.queue s ++
                topic_payloads (PubSub.topic s)
                  (published_since w (run w (Ev_unsubscribe i :: evs))))%list.
        simpl observed. rewrite observed_unsubscribed; [reflexivity | | exact Hi'].
        simpl. apply find_unsubscribe_same.
      * apply (Hsame s) with (pre := []); try reflexivity.
        simpl. now rewrite find_unsubscribe_other.
    + apply (Hsame s) with (pre := []); try reflexivity. exact Hf.
Qed.

Lemma registry_wf_boot (t0 : Z) (evs : list event) :
  registry_wf (pubsub (run (boot t0) evs)).
Proof. apply registry_wf_run. constructor. Qed.

(** A publish reaches the queue of a subscription exactly when it is on
    the subscription's topic. *)
Lemma enqueue_accounts (tp : string) (p : payload) (s : PubSub.subscription) :
  PubSub.topic (PubSub.enqueue tp p s) = PubSub.topic s /\
  PubSub.queue (PubSub.enqueue tp p s) =
  (PubSub.queue s ++ topic_payloads (PubSub.topic s) [(tp, p)])%list.
Proof.
  unfold PubSub.enqueue, topic_payloads. simpl filter.
  rewrite (String.eqb_sym tp).
  destruct (String.eqb (PubSub.topic s) tp); simpl.
  - split; reflexivity.
  - split; [reflexivity | now rewrite app_nil_r].
Qed.

(** One event, seen from a live subscription that the event does not
    end: the subscription stays, what the event delivers to the
    subscriber comes off the front of its queue, and what the event
    publishes on its topic goes to the back. *)
Lemma step_subscription (e : event) (i : nat) (w : World)
      (s : PubSub.subscription) :
  PubSub.find i (pubsub w) = Some s ->
  (i < PubSub.next_sid (pubsub w))%nat ->
  e <> Ev_unsubscribe i ->
  exists (s' : PubSub.subscription) (got : list payload)
         (l : list (string * payload)),
    PubSub.find i (pubsub (step w e)) = Some s' /\
    PubSub.topic s' = PubSub.topic s /\
    published (step w e) = (published w ++ l)%list /\
    (forall evs, observed i w (e :: evs)
                 = (got ++ observed i (step w e) evs)%list) /\
    (got ++ PubSub.queue s')%list =
    (PubSub.queue s ++ topic_payloads (PubSub.topic s) l)%list.
Proof.
  intros Hf Hi Hne.
  assert (Hpub : forall tp p,
    published (step w e) = (published w ++ [(tp, p)])%list ->
    pubsub (step w e) = PubSub.publish tp p (pubsub w) ->
    (forall evs, observed i w (e :: evs) = observed i (step w e) evs) ->
    exists s' got l,
      PubSub.find i (pubsub (step w e)) = Some s' /\
      PubSub.topic s' = PubSub.topic s /\
      published (step w e) = (published w ++ l)%list /\
      (forall evs, observed i w (e :: evs)
                   = (got ++ observed i (step w e) evs)%list) /\
      (got ++ PubSub.queue s')%list =
      (PubSub.queue s ++ topic_payloads (PubSub.topic s) l)%list).
  { intros tp p Ep Er Eo.
    destruct (enqueue_accounts tp p s) as [Et Eq].
    exists (PubSub.enqueue tp p s), [], [(tp, p)].
    split; [rewrite Er, find_publish, Hf; reflexivity |].
    split; [exact Et |]. split; [exact Ep |]. split; [exact Eo | exact Eq]. }
  assert (Hsame : forall s' got,
    published (step w e) = published w ->
    PubSub.find i (pubsub (step w e)) = Some s' ->
    PubSub.topic s' = PubSub.topic s ->
    (got ++ PubSub.queue s')%list = PubSub.queue s ->
    (forall evs, observed i w (e :: evs)
                 = (got ++ observed i (step w e) evs)%list) ->
    exists s' got l,
      PubSub.find i (pubsub (step w e)) = Some s' /\
      PubSub.topic s' = PubSub.topic s /\
      published (step w e) = (published w ++ l)%list /\
      (forall evs, observed i w (e :: evs)
                   = (got ++ observed i (step w e) evs)%list) /\
      (got ++ PubSub.queue s')%list =
      (PubSub.queue s ++ topic_payloads (PubSub.topic s) l)%list).
  { intros s' got Ep Hf' Et Eq Eo.
    exists s', got, [].
    split; [exact Hf' |]. split; [exact Et |].
    split; [now rewrite app_nil_r |]. split; [exact Eo |].
    unfold topic_payloads. simpl. now rewrite app_nil_r. }
  destruct e as [r | | x | x y | f | j | j | t].
  - simpl in *. unfold execute_sendMessage in *.
    destruct (coerce_sendMessage r); simpl in *.
    + apply (Hsame s []); try reflexivity; assumption.
    + eapply Hpub; reflexivity.
  - eapply Hpub; reflexivity.
  - eapply Hpub; reflexivity.
  - eapply Hpub; reflexivity.
  - apply (Hsame s []); try reflexivity.
    now rewrite find_subscribe_old.
  - destruct (Nat.eq_dec j i) as [-> | NE].
    + pose proof (find_sid _ _ _ Hf) as Hsid.
      destruct (PubSub.queue s) as [| p q] eqn:Eq.
      * apply (Hsame s []); try reflexivity.
        -- simpl. unfold PubSub.next. rewrite Hf, Eq. simpl.
           destruct (pubsub w); exact Hf.
        -- now rewrite Eq.
        -- intros evs. simpl. rewrite Nat.eqb_refl. unfold PubSub.next.
           now rewrite Hf, Eq.
      * apply (Hsame (PubSub.pop i s) [p]); try reflexivity.
        -- simpl. unfold PubSub.next. rewrite Hf, Eq. simpl.
           unfold PubSub.find in *. simpl.
           rewrite find_map_sid by apply pop_sid. now rewrite Hf.
        -- unfold PubSub.pop. now destruct (Nat.eqb (PubSub.sid s) i).
        -- unfold PubSub.pop. rewrite Hsid, Nat.eqb_refl. simpl.
           now rewrite Eq.
        -- intros evs. simpl. rewrite Nat.eqb_refl. unfold PubSub.next.
           now rewrite Hf, Eq.
    + apply (Hsame s []); try reflexivity.
      * simpl. unfold PubSub.next.
        destruct (PubSub.find j (pubsub w)) as [s' |] eqn:Ej;
          [| destruct (pubsub w); exact Hf].
        destruct (PubSub.queue s'); [destruct (pubsub w); exact Hf |].
        simpl. unfold PubSub.find in *. simpl.
        rewrite find_map_sid by apply pop_sid. rewrite Hf. simpl.
        unfold PubSub.pop. pose proof (find_sid _ _ _ Hf) as Hsid.
        destruct (Nat.eqb_spec (PubSub.sid s) j); [congruence | reflexivity].
      * intros evs. simpl.
        destruct (Nat.eqb_spec j i); [contradiction | reflexivity].
  - assert (NE : j <> i) by congruence.
    apply (Hsame s []); try reflexivity.
    simpl. now rewrite find_unsubscribe_other.
  - apply (Hsame s []); try reflexivity. exact Hf.
Qed.

(** A subscription that is not ended loses nothing: what it has
    delivered followed by what it still holds is what it held at first
    followed by all that has been published on its topic since. *)
Lemma observed_accounted (evs : list event) (i : nat) (w : World)
      (s : PubSub.subscription) :
  PubSub.find i (pubsub w) = Some s ->
  (i < PubSub.next_sid (pubsub w))%nat ->
  ~ In (Ev_unsubscribe i) evs ->
  exists s' : PubSub.subscription,
    PubSub.find i (pubsub (run w evs)) = Some s' /\
    PubSub.topic s' = PubSub.topic s /\
    (observed i w evs ++ PubSub.queue s')%list =
    (PubSub.queue s ++
       topic_payloads (PubSub.topic s) (published_since w (run w evs)))%list.
Proof.
  revert w s. induction evs as [| e evs IH]; intros w s Hf Hi Hun.
  - exists s. split; [exact Hf |]. split; [reflexivity |]. simpl.
    rewrite (published_since_app w w []) by now rewrite app_nil_r.
    unfold topic_payloads. simpl. now rewrite app_nil_r.
  - assert (Hne : e <> Ev_unsubscribe i).
    { intros ->. apply Hun. now left. }
    assert (Hun' : ~ In (Ev_unsubscribe i) evs).
    { intros H. apply Hun. now right. }
    assert (Hi' : (i < PubSub.next_sid (pubsub (step w e)))%nat).
    { pose proof (next_sid_step w e). lia. }
    destruct (step_subscription e i w s Hf Hi Hne)
      as (s1 & got & l & Hf1 & Et1 & Ep1 & Eo1 & Eq1).
    destruct (IH _ _ Hf1 Hi' Hun') as (s' & Hf' & Et' & Eq').
    destruct (published_run_grows evs (step w e)) as [l2 H2].
    exists s'. split; [exact Hf' |]. split; [congruence |].
    rewrite Eo1, <- app_assoc, Eq'. simpl run.
    rewrite (published_since_app (step w e) _ l2) by exact H2.
    rewrite (published_since_app w _ (l ++ l2)%list)
      by (rewrite H2, Ep1, <- app_assoc; reflexivity).
    rewrite topic_payloads_app, Et1, !app_assoc, Eq1. reflexivity.
Qed.

Lemma observed_app (i : nat) (evs more : list event) (w : World) :
  observed i w (evs ++ more) =
  (observed i w evs ++ observed i (run w evs) more)%list.
Proof.
  revert w. induction evs as [| e evs IH]; intros w; [reflexivity |].
  simpl. rewrite IH. destruct e; try reflexivity.
  destruct (Nat.eqb i0 i); [| reflexivity].
  destruct (fst (PubSub.next i (pubsub w))); reflexivity.
Qed.

(** Calls of [next] with nothing in between hand over the queue from
    its front, one payload a call. *)
Lemma observed_drain (k : nat) (i : nat) (w : World)
      (s : PubSub.subscription) :
  PubSub.find i (pubsub w) = Some s ->
  observed i w (repeat (Ev_next i) k) = firstn k (PubSub.queue s).
Proof.
  revert w s. induction k as [| k IH]; intros w s Hf; [reflexivity |].
  pose proof (find_sid _ _ _ Hf) as Hsid.
  cbn [repeat observed]. rewrite Nat.eqb_refl.
  destruct (PubSub.queue s) as [| p q] eqn:Eq.
  - assert (En : PubSub.next i (pubsub w) = (None, pubsub w)).
    { unfold PubSub.next. now rewrite Hf, Eq. }
    cbn [step]. rewrite En. cbn [fst snd].
    rewrite (IH _ s); [rewrite Eq; now destruct k |].
    exact Hf.
  - assert (En : PubSub.next i (pubsub w)
                 = (Some p,
                    {| PubSub.subscriptions :=
                         map (PubSub.pop i) (PubSub.subscriptions (pubsub w));
                       PubSub.next_sid := PubSub.next_sid (pubsub w) |})).
    { unfold PubSub.next. now rewrite Hf, Eq. }
    cbn [step]. rewrite En. cbn [fst snd firstn]. f_equal.
    rewrite (IH _ (PubSub.pop i s)).
    + unfold PubSub.pop. rewrite Hsid, Nat.eqb_refl. simpl. now rewrite Eq.
    + simpl. unfold PubSub.find in *. simpl.
      rewrite find_map_sid by apply pop_sid. now rewrite Hf.
Qed.

(** A run in which a subscriber sees two publishes come in, the first
    first. *)
Example delivery_in_order :
  observed 0 (boot 0)
    [Ev_subscribe field_messageAdded; Ev_message_timer;
     Ev_status_timer (1 # 2); Ev_sendMessage hi_request;
     Ev_next 0; Ev_next 0; Ev_next 0]
  = map snd (published
               (run (boot 0) [Ev_message_timer; Ev_sendMessage hi_request])).
Proof. reflexivity. Qed.

(** C6. A subscriber that subscribes to a topic, at any point of any run
    of the server, receives the payloads published on that topic from
    then on in the order of their publication: what it has observed is
    always an initial segment of what has been published there since, so
    its [n]-th observation is the [n]-th publish, and of two publishes it
    observes the earlier one first.  As long as it has not unsubscribed
    nothing is lost either: its subscription is registered under the
    topic and holds, in order, the publishes it has not observed yet;
    every further call of [next] hands over the one at the front, and
    once it has called [next] for each of them it has observed all the
    publishes, each at the place it was published at. *)
Theorem delivery_is_fifo
        (t0 : Z) (pre : list event) (f : subscription_field)
        (evs : list event) :
  let w := run (boot t0) pre in
  let i := fst (Subscription_subscribe f w) in
  let w1 := snd (Subscription_subscribe f w) in
  let pubs := topic_payloads (topic_of f) (published_since w1 (run w1 evs)) in
  (exists rest, (observed i w1 evs ++ rest)%list = pubs) /\
  (forall n p,
      nth_error (observed i w1 evs) n = Some p -> nth_error pubs n = Some p) /\
  (~ In (Ev_unsubscribe i) evs ->
   exists s : PubSub.subscription,
     PubSub.find i (pubsub (run w1 evs)) = Some s /\
     PubSub.topic s = topic_of f /\
     (observed i w1 evs ++ PubSub.queue s)%list = pubs /\
     (forall k : nat,
         observed i w1 (evs ++ repeat (Ev_next i) k)
         = (observed i w1 evs ++ firstn k (PubSub.queue s))%list) /\
     observed i w1 (evs ++ repeat (Ev_next i) (length (PubSub.queue s)))
       = pubs /\
     (forall (n1 n2 : nat) (P1 P2 : payload),
         (n1 < n2)%nat ->
         nth_error pubs n1 = Some P1 ->
         nth_error pubs n2 = Some P2 ->
         exists more : list event,
           nth_error (observed i w1 (evs ++ more)) n1 = Some P1 /\
           nth_error (observed i w1 (evs ++ more)) n2 = Some P2)).
Proof.
  intros w i w1 pubs.
  assert (Hwf : registry_wf (pubsub w)) by apply registry_wf_boot.
  assert (Hf : PubSub.find i (pubsub w1)
               = Some (PubSub.mkSubscription i (topic_of f) [])).
  { exact (find_asyncIterator_new (topic_of f) (pubsub w) Hwf). }
  assert (Hi : (i < PubSub.next_sid (pubsub w1))%nat).
  { subst i w1. simpl. lia. }
  destruct (observed_subscribed evs i w1 _ Hf Hi) as [rest Hrest].
  simpl in Hrest. fold pubs in Hrest.
  split; [exists rest; exact Hrest |].
  split.
  { intros n p Hn. rewrite <- Hrest.
    rewrite nth_error_app1; [exact Hn |].
    apply nth_error_Some. congruence. }
  intros Hun.
  destruct (observed_accounted evs i w1 _ Hf Hi Hun) as (s & Hs & Et & Eq).
  simpl in Et, Eq. fold pubs in Eq.
  assert (Hk : forall k : nat,
             observed i w1 (evs ++ repeat (Ev_next i) k)
             = (observed i w1 evs ++ firstn k (PubSub.queue s))%list).
  { intros k. rewrite observed_app. f_equal. now apply observed_drain. }
  assert (Hall : observed i w1 (evs ++ repeat (Ev_next i)
                                              (length (PubSub.queue s)))
                 = pubs).
  { rewrite Hk, firstn_all. exact Eq. }
  exists s. split; [exact Hs |]. split; [exact Et |]. split; [exact Eq |].
  split; [exact Hk |]. split; [exact Hall |].
  intros n1 n2 P1 P2 _ H1 H2.
  exists (repeat (Ev_next i) (length (PubSub.queue s))).
  rewrite Hall. split; assumption.
Qed.

(** ** Rounding to binary64 *)

Lemma rne_div_spec (u v : Z) :
  0 < v ->
  (2 * JsNumber.rne_div u v - 1) * v <= 2 * u <= (2 * JsNumber.rne_div u v + 1) * v /\
  (2 * u = (2 * JsNumber.rne_div u v + 1) * v -> Z.even (JsNumber.rne_div u v) = true) /\
  (2 * u = (2 * JsNumber.rne_div u v - 1) * v -> Z.even (JsNumber.rne_div u v) = true).
Proof.
  intros Hv. unfold JsNumber.rne_div.
  pose proof (Z.div_mod u v ltac:(lia)) as Hdm.
  pose proof (Z.mod_pos_bound u v Hv) as Hr.
  set (q := u / v) in *. set (r := u mod v) in *.
  assert (Hu : 2 * u = 2 * (v * q) + 2 * r) by lia.
  destruct (Z.compare_spec (2 * r) v) as [E | L | G];
    [destruct (Z.even q) eqn:Ev |..].
  - repeat split; try nia. intros _. exact Ev.
  - assert (Ev' : Z.even (q + 1) = true) by (rewrite Z.even_add, Ev; reflexivity).
    repeat split; try nia; intros _; exact Ev'.
  - repeat split; try nia.
  - repeat split; try nia.
Qed.

Lemma rne_div_monotone (u1 v1 u2 v2 : Z) :
  0 < v1 -> 0 < v2 -> u1 * v2 <= u2 * v1 ->
  JsNumber.rne_div u1 v1 <= JsNumber.rne_div u2 v2.
Proof.
  intros H1 H2 Hle.
  destruct (rne_div_spec u1 v1 H1) as [[Lo1 _] [_ T1]].
  destruct (rne_div_spec u2 v2 H2) as [[_ Hi2] [T2 _]].
  remember (JsNumber.rne_div u1 v1) as m eqn:Em.
  remember (JsNumber.rne_div u2 v2) as n eqn:En.
  clear Em En.
  destruct (Z_le_gt_dec m n) as [| Hgt]; [assumption | exfalso].
  assert (A : (2 * m - 1) * (v1 * v2) <= 2 * (u1 * v2)) by nia.
  assert (B : 2 * (u2 * v1) <= (2 * n + 1) * (v1 * v2)) by nia.
  assert (Hp : 0 < v1 * v2) by nia.
  assert (C : (2 * n + 1) * (v1 * v2) <= (2 * m - 1) * (v1 * v2)) by nia.
  assert (Hn : n = m - 1) by nia.
  assert (E1 : 2 * u1 = (2 * m - 1) * v1) by nia.
  assert (E2 : 2 * u2 = (2 * n + 1) * v2) by nia.
  specialize (T1 E1). specialize (T2 E2). rewrite Hn in T2.
  replace m with (m - 1 + 1) in T1 by ring.
  rewrite Z.even_add, T2 in T1. discriminate.
Qed.

Lemma rne_div_exact (n v : Z) : 0 < v -> JsNumber.rne_div (n * v) v = n.
Proof.
  intros Hv. unfold JsNumber.rne_div.
  rewrite Z.div_mul, Z.mod_mul by lia.
  destruct (Z.compare_spec (2 * 0) v); lia.
Qed.

Module JsDoubleFacts.

Import JsDouble.
Local Open Scope Q_scope.

Lemma rne_monotone (x y : Q) : x <= y -> (rne x <= rne y)%Z.
Proof.
  intros H. unfold rne. apply rne_div_monotone; try reflexivity. exact H.
Qed.

Lemma rne_inject_Z (x : Q) (n : Z) : x == inject_Z n -> rne x = n.
Proof.
  unfold Qeq, rne. simpl. intros H. rewrite Z.mul_1_r in H. rewrite H.
  apply rne_div_exact. reflexivity.
Qed.

Lemma pow2_pos (q : Z) : 0 < 2 ^ q.
Proof. apply Qpower_0_lt. reflexivity. Qed.

Lemma pow2_plus (a b : Z) : 2 ^ (a + b) == 2 ^ a * 2 ^ b.
Proof. apply Qpower_plus. discriminate. Qed.

Lemma pow2_inject (q : Z) : (0 <= q)%Z -> inject_Z (2 ^ q) == 2 ^ q.
Proof. intros H. now rewrite Zpower_Qpower. Qed.

Lemma scale_spec (x : Q) (q : Z) : scale x q == x * 2 ^ q.
Proof.
  unfold scale. destruct (Z.leb_spec 0 q) as [H | H].
  - now rewrite pow2_inject.
  - rewrite pow2_inject by lia. unfold Qdiv.
    rewrite <- Qpower_opp, Z.opp_involutive. reflexivity.
Qed.

Lemma scale_monotone (x y : Q) (q : Z) : x <= y -> scale x q <= scale y q.
Proof.
  intros H. rewrite !scale_spec. apply Qmult_le_compat_r; [exact H |].
  apply Qlt_le_weak, pow2_pos.
Qed.

Lemma round_pos_grid (x : Q) : round_pos x = round_grid (ulp_exp x) x.
Proof. reflexivity. Qed.

Lemma round_grid_monotone (q : Z) (x y : Q) :
  x <= y -> round_grid q x <= round_grid q y.
Proof.
  intros H. unfold round_grid. apply scale_monotone.
  rewrite <- Zle_Qle. apply rne_monotone, scale_monotone, H.
Qed.

Lemma round_grid_pow2 (q e : Z) : (q <= e)%Z -> round_grid q (2 ^ e) == 2 ^ e.
Proof.
  intros H. unfold round_grid.
  assert (E : scale (2 ^ e) (- q) == inject_Z (2 ^ (e - q))).
  { rewrite scale_spec, <- pow2_plus, pow2_inject by lia. reflexivity. }
  rewrite (rne_inject_Z _ _ E), scale_spec, pow2_inject by lia.
  rewrite <- pow2_plus. now replace (e - q + q)%Z with e by ring.
Qed.

Lemma round_grid_nonneg (q : Z) (x : Q) : 0 <= x -> 0 <= round_grid q x.
Proof.
  intros H. unfold round_grid. rewrite scale_spec.
  apply Qmult_le_0_compat; [| apply Qlt_le_weak, pow2_pos].
  change 0 with (inject_Z 0). rewrite <- Zle_Qle.
  rewrite <- (rne_inject_Z 0 0%Z) by reflexivity.
  apply rne_monotone. rewrite scale_spec.
  apply Qmult_le_0_compat; [exact H | apply Qlt_le_weak, pow2_pos].
Qed.

Lemma log2_bounds (a : Z) :
  (0 < a)%Z -> 2 ^ Z.log2 a <= inject_Z a /\ inject_Z a < 2 ^ (Z.log2 a + 1).
Proof.
  intros Ha. destruct (Z.log2_spec a Ha) as [L U].
  pose proof (Z.log2_nonneg a) as Hn. split.
  - rewrite <- pow2_inject by assumption. now rewrite <- Zle_Qle.
  - rewrite <- pow2_inject by lia. now rewrite <- Zlt_Qlt.
Qed.

Lemma ilog2_spec (x : Q) :
  0 < x -> 2 ^ ilog2 x <= x /\ x < 2 ^ (ilog2 x + 1).
Proof.
  intros Hx. destruct x as [a b].
  assert (Ha : (0 < a)%Z).
  { unfold Qlt in Hx. simpl in Hx. lia. }
  assert (Hb : (0 < Z.pos b)%Z) by reflexivity.
  destruct (log2_bounds a Ha) as [LA UA].
  destruct (log2_bounds (Z.pos b) Hb) as [LB UB].
  unfold ilog2. simpl Qnum. simpl Qden.
  set (la := Z.log2 a) in *. set (lb := Z.log2 (Z.pos b)) in *.
  set (d := (la - lb)%Z).
  assert (HB : 0 < inject_Z (Z.pos b)) by (rewrite <- (Zlt_Qlt 0); exact Hb).
  assert (Ex : a # b == inject_Z a / inject_Z (Z.pos b)) by apply Qmake_Qdiv.
  assert (Test : (Z.pos b * 2 ^ Z.max d 0 <= a * 2 ^ Z.max (- d) 0)%Z <->
                 inject_Z (Z.pos b) * 2 ^ d <= inject_Z a).
  { rewrite Zle_Qle, !inject_Z_mult, !pow2_inject by lia.
    replace (Z.max d 0) with (d + Z.max (- d) 0)%Z by lia.
    rewrite pow2_plus, Qmult_assoc.
    split; intros H.
    - apply Qmult_le_r in H; [exact H | apply pow2_pos].
    - apply Qmult_le_r; [apply pow2_pos | exact H]. }
  destruct (Z.leb_spec (Z.pos b * 2 ^ Z.max d 0) (a * 2 ^ Z.max (- d) 0)) as [T | T].
  - apply Test in T. rewrite Ex. split.
    + apply Qle_shift_div_l; [exact HB |]. now rewrite Qmult_comm.
    + apply Qlt_shift_div_r; [exact HB |].
      eapply Qlt_le_trans; [exact UA |].
      replace (la + 1)%Z with (d + 1 + lb)%Z by (unfold d; ring).
      rewrite pow2_plus. apply Qmult_le_l; [apply pow2_pos | exact LB].
  - assert (T' : inject_Z a < inject_Z (Z.pos b) * 2 ^ d).
    { apply Qnot_le_lt. intros H. apply Test in H. lia. }
    rewrite Ex. split.
    + apply Qle_shift_div_l; [exact HB |].
      eapply Qle_trans; [| exact LA].
      replace la with (d - 1 + (lb + 1))%Z by (unfold d; ring).
      rewrite pow2_plus. apply Qmult_le_l; [apply pow2_pos |].
      apply Qlt_le_weak, UB.
    + apply Qlt_shift_div_r; [exact HB |].
      replace (d - 1 + 1)%Z with d by ring. now rewrite Qmult_comm.
Qed.

Lemma ilog2_monotone (x y : Q) : 0 < x -> x <= y -> (ilog2 x <= ilog2 y)%Z.
Proof.
  intros Hx Hxy.
  assert (Hy : 0 < y) by (eapply Qlt_le_trans; eassumption).
  destruct (ilog2_spec x Hx) as [Lx _]. destruct (ilog2_spec y Hy) as [_ Uy].
  assert (H : 2 ^ ilog2 x < 2 ^ (ilog2 y + 1)).
  { eapply Qle_lt_trans; [exact Lx |]. eapply Qle_lt_trans; eassumption. }
  apply Qpower_lt_compat_l_inv in H; [lia | reflexivity].
Qed.

Lemma round_pos_monotone (x y : Q) :
  0 < x -> x <= y -> round_pos x <= round_pos y.
Proof.
  intros Hx Hxy.
  assert (Hy : 0 < y) by (eapply Qlt_le_trans; eassumption).
  pose proof (ilog2_monotone x y Hx Hxy) as He.
  rewrite !round_pos_grid. unfold ulp_exp.
  destruct (Z.eq_dec (ilog2 x) (ilog2 y)) as [E | NE].
  - rewrite E. now apply round_grid_monotone.
  - destruct (ilog2_spec x Hx) as [_ Ux]. destruct (ilog2_spec y Hy) as [Ly _].
    destruct (Z.eq_dec (Z.max (ilog2 x - 52) (-1074)) (Z.max (ilog2 y - 52) (-1074)))
      as [Eq | NEq].
    + rewrite Eq. now apply round_grid_monotone.
    + assert (Hxe : x <= 2 ^ ilog2 y).
      { apply Qlt_le_weak. eapply Qlt_le_trans; [exact Ux |].
        apply Qpower_le_compat_l; [lia | discriminate]. }
      apply Qle_trans with (2 ^ ilog2 y).
      * rewrite <- (round_grid_pow2 (Z.max (ilog2 x - 52) (-1074)) (ilog2 y)) by lia.
        now apply round_grid_monotone.
      * rewrite <- (round_grid_pow2 (Z.max (ilog2 y - 52) (-1074)) (ilog2 y)) at 1 by lia.
        now apply round_grid_monotone.
Qed.

(** Rounding to the nearest binary64 is monotone on the non-negative
    rationals. *)
Lemma round_monotone (x y : Q) : 0 <= x -> x <= y -> round x <= round y.
Proof.
  intros Hx Hxy. unfold round.
  destruct x as [[| a | a] b]; simpl Qnum.
  - destruct y as [[| c | c] e]; simpl Qnum.
    + apply Qle_refl.
    + rewrite round_pos_grid. apply round_grid_nonneg. discriminate.
    + exfalso. unfold Qle in Hxy. simpl in Hxy. lia.
  - destruct y as [[| c | c] e]; simpl Qnum.
    + exfalso. unfold Qle in Hxy. simpl in Hxy. lia.
    + apply round_pos_monotone; [reflexivity | exact Hxy].
    + exfalso. unfold Qle in Hxy. simpl in Hxy. lia.
  - exfalso. unfold Qle in Hx. simpl in Hx. lia.
Qed.

End JsDoubleFacts.

(** ** The two views of a Number agree on the integers *)

Lemma rne_Qeq (x y : Q) : (x == y)%Q -> JsDouble.rne x = JsDouble.rne y.
Proof.
  intros E. apply Z.le_antisymm; apply JsDoubleFacts.rne_monotone;
    rewrite E; apply Qle_refl.
Qed.

Lemma ilog2_inject_Z (n : Z) : 0 < n -> JsDouble.ilog2 (inject_Z n) = Z.log2 n.
Proof.
  intros Hn. unfold JsDouble.ilog2. simpl Qnum. simpl Qden.
  change (Z.log2 1) with 0. rewrite Z.sub_0_r.
  pose proof (Z.log2_nonneg n) as Hl. destruct (Z.log2_spec n Hn) as [L _].
  rewrite Z.max_l, Z.max_r by lia. rewrite Z.pow_0_r.
  destruct (Z.leb_spec (1 * 2 ^ Z.log2 n) (n * 1)); [reflexivity | lia].
Qed.

(** [JsNumber.round_int] is [JsDouble.round] on the positive integers:
    the counter's arithmetic is the arithmetic of Numbers. *)
Lemma round_int_is_round (n : Z) :
  0 < n -> (JsDouble.round (inject_Z n) == inject_Z (JsNumber.round_int n))%Q.
Proof.
  intros Hn. unfold JsDouble.round, JsNumber.round_int.
  destruct n as [| p | p]; try lia. simpl Qnum.
  unfold JsDouble.round_pos, JsDouble.ulp_exp.
  rewrite ilog2_inject_Z by assumption. rewrite Z.abs_eq by lia.
  pose proof (Z.log2_nonneg (Z.pos p)) as Hl.
  rewrite Z.max_l by lia.
  set (k := Z.log2 (Z.pos p) - 52) in *.
  unfold JsDouble.round_grid.
  destruct (Z.leb_spec k 0) as [Hk | Hk].
  - assert (E : (JsDouble.scale (inject_Z (Z.pos p)) (- k)
                 == inject_Z (Z.pos p * 2 ^ (- k)))%Q).
    { rewrite JsDoubleFacts.scale_spec, inject_Z_mult.
      rewrite JsDoubleFacts.pow2_inject by lia. reflexivity. }
    rewrite (JsDoubleFacts.rne_inject_Z _ _ E).
    rewrite JsDoubleFacts.scale_spec, inject_Z_mult.
    rewrite JsDoubleFacts.pow2_inject by lia.
    rewrite <- Qmult_assoc, <- JsDoubleFacts.pow2_plus.
    replace (- k + k) with 0 by ring. apply Qmult_1_r.
  - assert (Hp : 0 < 2 ^ k) by (apply Z.pow_pos_nonneg; lia).
    assert (E : (JsDouble.scale (inject_Z (Z.pos p)) (- k)
                 == Z.pos p # Z.to_pos (2 ^ k))%Q).
    { unfold JsDouble.scale. destruct (Z.leb_spec 0 (- k)); [lia |].
      rewrite Z.opp_involutive, Qmake_Qdiv, Z2Pos.id by assumption.
      reflexivity. }
    rewrite (rne_Qeq _ _ E). unfold JsDouble.rne. simpl Qnum. simpl Qden.
    rewrite Z2Pos.id by assumption.
    rewrite JsDoubleFacts.scale_spec, inject_Z_mult.
    rewrite JsDoubleFacts.pow2_inject by lia. reflexivity.
Qed.

(** ** The load published by the status generator *)

Lemma toFixed2_monotone (x y : Q) :
  (0 <= x)%Q -> (x <= y)%Q -> JsDouble.toFixed2 x <= JsDouble.toFixed2 y.
Proof.
  intros Hx Hxy. unfold JsDouble.toFixed2.
  assert (Hy : (0 <= y)%Q) by (eapply Qle_trans; eassumption).
  apply Qle_bool_iff in Hx. apply Qle_bool_iff in Hy. rewrite Hx, Hy.
  apply Qfloor_resp_le. apply Qplus_le_l. apply Qmult_le_compat_r; [exact Hxy |].
  discriminate.
Qed.

(** [Number((r * 1.5 + 0.1).toFixed(2))] for a draw [0 <= r < 1]: the
    numeral has between 10 and 160 hundredths. *)
Lemma status_load_hundredths (r : Q) :
  (0 <= r)%Q -> (r < 1)%Q ->
  10 <= JsDouble.toFixed2
          (JsDouble.add (JsDouble.mul r (JsDouble.literal 15 10))
                        (JsDouble.literal 1 10)) <= 160.
Proof.
  intros H0 H1. unfold JsDouble.add, JsDouble.mul.
  set (c := JsDouble.literal 15 10). set (d := JsDouble.literal 1 10).
  assert (Hc : (0 <= c)%Q) by (vm_compute; discriminate).
  assert (Hd : (0 <= d)%Q) by (vm_compute; discriminate).
  assert (Hp : (0 <= r * c)%Q) by (now apply Qmult_le_0_compat).
  assert (Hpc : (r * c <= c)%Q).
  { rewrite <- (Qmult_1_l c) at 2. apply Qmult_le_compat_r; [| exact Hc].
    now apply Qlt_le_weak. }
  assert (Lm : (0 <= JsDouble.round (r * c))%Q).
  { change 0%Q with (JsDouble.round 0).
    apply JsDoubleFacts.round_monotone; [apply Qle_refl | exact Hp]. }
  assert (Um : (JsDouble.round (r * c) <= JsDouble.round c)%Q).
  { now apply JsDoubleFacts.round_monotone. }
  set (m := JsDouble.round (r * c)) in *.
  assert (Ls : (d <= m + d)%Q).
  { rewrite <- (Qplus_0_l d) at 1. now apply Qplus_le_l. }
  assert (Us : (m + d <= JsDouble.round c + d)%Q) by now apply Qplus_le_l.
  assert (Lx : (JsDouble.round d <= JsDouble.round (m + d))%Q).
  { now apply JsDoubleFacts.round_monotone. }
  assert (Ux : (JsDouble.round (m + d) <= JsDouble.round (JsDouble.round c + d))%Q).
  { apply JsDoubleFacts.round_monotone; [| exact Us].
    eapply Qle_trans; [exact Hd | exact Ls]. }
  set (x := JsDouble.round (m + d)) in *.
  assert (Hrd : (0 <= JsDouble.round d)%Q) by (vm_compute; discriminate).
  split.
  - change 10 with (JsDouble.toFixed2 (JsDouble.round d)).
    now apply toFixed2_monotone.
  - change 160 with (JsDouble.toFixed2 (JsDouble.round (JsDouble.round c + d))).
    apply toFixed2_monotone; [| exact Ux].
    eapply Qle_trans; [exact Hrd | exact Lx].
Qed.

(** C5. A tick of the status generator publishes one SystemStatus, with
    [online = true] and with a [load] that, for every draw [r] of
    [Math.random()] (a number with [0 <= r < 1]), is the Number written
    with two decimals [n / 100] for some [10 <= n <= 160]: it lies
    between the Numbers [0.1] and [1.6], ends included. *)
Theorem status_generator_tick (r : Q) (w : World) :
  (0 <= r)%Q -> (r < 1)%Q ->
  exists (s : SystemStatus) (w' : World),
    run_async (status_generator r) w = (tt, w') /\
    published w' =
      (published w ++ [(SYSTEM_STATUS_CHANGED, systemStatusChanged s)])%list /\
    online s = true /\
    (exists n : Z, 10 <= n <= 160 /\ load s = JsDouble.Number_of_fixed2 n) /\
    (JsDouble.literal 1 10 <= load s)%Q /\
    (load s <= JsDouble.literal 16 10)%Q.
Proof.
  intros H0 H1. eexists. eexists.
  split; [reflexivity |]. split; [reflexivity |]. split; [reflexivity |].
  cbn [load]. unfold status_load.
  pose proof (status_load_hundredths r H0 H1) as Hn.
  set (n := JsDouble.toFixed2 _) in *.
  split; [exists n; split; [exact Hn | reflexivity] |].
  unfold JsDouble.Number_of_fixed2, JsDouble.literal.
  split; apply JsDoubleFacts.round_monotone;
    try (unfold Qle; simpl; lia).
Qed.

Lemma status_generator_tick_witness :
  exists (s : SystemStatus) (w' : World),
    run_async (status_generator (1 # 2)) (boot 0) = (tt, w') /\
    published w' = [(SYSTEM_STATUS_CHANGED, systemStatusChanged s)] /\
    online s = true /\
    (exists n : Z, 10 <= n <= 160 /\ load s = JsDouble.Number_of_fixed2 n) /\
    (JsDouble.literal 1 10 <= load s)%Q /\
    (load s <= JsDouble.literal 16 10)%Q.
Proof.
  apply (status_generator_tick (1 # 2) (boot 0)).
  - unfold Qle; simpl; lia.
  - unfold Qlt; simpl; lia.
Defined.

(** ** The generators do not depend on one another *)

Lemma off_status_snoc (l : list (string * payload)) (tp : string) (p : payload) :
  off_status (l ++ [(tp, p)]) =
  (off_status l ++
     (if String.eqb tp SYSTEM_STATUS_CHANGED then [] else [(tp, p)]))%list.
Proof.
  unfold off_status. rewrite filter_app. simpl.
  now destruct (String.eqb tp SYSTEM_STATUS_CHANGED).
Qed.

Lemma same_for_others_step (w w' : World) (e : event) :
  same_for_others w w' -> same_for_others (step w e) (step w' e).
Proof.
  intros [Hc [Hn Hp]]. unfold same_for_others.
  destruct e as [r | | x | x y | f | i | i | t]; simpl.
  - unfold execute_sendMessage. destruct (coerce_sendMessage r); simpl.
    + auto.
    + rewrite !off_status_snoc, Hc, Hn, Hp. auto.
  - rewrite !off_status_snoc, Hc, Hn, Hp. auto.
  - rewrite !off_status_snoc, Hn, Hp. auto.
  - rewrite !off_status_snoc, Hn, Hp. auto.
  - auto.
  - auto.
  - auto.
  - auto.
Qed.

Lemma same_for_others_status (w w' : World) (r : Q) :
  same_for_others w w' -> same_for_others (step w (Ev_status_timer r)) w'.
Proof.
  intros [Hc [Hn Hp]]. unfold same_for_others. simpl.
  rewrite off_status_snoc. simpl. rewrite app_nil_r. auto.
Qed.

(** Taking the ticks of the status generator out of a schedule changes
    neither the counter nor what is published on the other topics, the
    ticks of the settings generator being given the same draws of
    [Math.random()] in both schedules (an event carries its draws; which
    draws a tick gets from the one stream of the process is not part of
    the schedule). *)
Lemma status_generator_does_not_interfere (evs : list event) (w w' : World) :
  same_for_others w w' ->
  same_for_others (run w evs) (run w' (filter not_status_timer evs)).
Proof.
  revert w w'. induction evs as [| e evs IH]; intros w w' H; [exact H |].
  cbn [filter]. destruct (not_status_timer e) eqn:E.
  - apply (IH (step w e) (step w' e)). now apply same_for_others_step.
  - destruct e as [| | r | | | | |]; try discriminate E.
    apply (IH (step w (Ev_status_timer r)) w').
    now apply same_for_others_status.
Qed.

(** * More of [src/index.js] *)

(** ** The counter and the publish history over whole runs *)

Lemma count_issues_app (evs more : list event) :
  count_issues (evs ++ more) = (count_issues evs + count_issues more)%nat.
Proof. unfold count_issues. now rewrite filter_app, length_app. Qed.

Lemma run_app (w : World) (evs more : list event) :
  run w (evs ++ more) = run (run w evs) more.
Proof. unfold run. apply fold_left_app. Qed.

Lemma idCounter_in_range (t0 : Z) (evs : list event) :
  1 <= idCounter (run (boot t0) evs) <= JsNumber.limit.
Proof.
  destruct (run_from_boot t0 evs) as [H _]. rewrite H.
  unfold JsNumber.limit. lia.
Qed.

(** X1. In every state the server reaches, the counter is a whole number
    between [1] and [2^53]; it never goes down, however a run is
    continued; and every [id] handed out is the plain decimal numeral of
    such a number, which reads back as that number. *)
Theorem idCounter_never_leaves_its_range
        (t0 : Z) (evs more : list event) :
  1 <= idCounter (run (boot t0) evs) <= JsNumber.limit /\
  idCounter (run (boot t0) evs) <= idCounter (run (boot t0) (evs ++ more)) /\
  Forall (fun s : string =>
            exists n : Z, 1 <= n <= JsNumber.limit /\
                          s = JsNumber.String n /\
                          Number_of_id s = Some n)
         (issued_ids (run (boot t0) evs)).
Proof.
  split; [apply idCounter_in_range |]. split.
  - destruct (run_from_boot t0 evs) as [H _].
    destruct (run_from_boot t0 (evs ++ more)) as [H' _].
    rewrite H, H', count_issues_app. lia.
  - destruct (run_from_boot t0 evs) as [_ H]. rewrite H.
    apply Forall_map. apply Forall_forall. intros i Hi.
    apply Zseq_bounds in Hi. unfold nth_issue.
    exists (Z.min i JsNumber.limit). split; [unfold JsNumber.limit; lia |].
    split; [reflexivity | apply Number_of_String].
Qed.

Lemma add_one_in_range (c : Z) :
  1 <= c <= JsNumber.limit -> 1 <= JsNumber.add c 1 <= JsNumber.limit.
Proof.
  intros H. rewrite add_one_min by lia. unfold JsNumber.limit in *. lia.
Qed.

(** What one event adds to the publish history. *)
Lemma step_publishes (w : World) (e : event) :
  1 <= idCounter w <= JsNumber.limit ->
  exists l : list (string * payload),
    published (step w e) = (published w ++ l)%list /\
    Forall (fun x => fst x = topic_of (payload_field (snd x)) /\
                     built_by_server (snd x)) l.
Proof.
  intros Hc.
  assert (Hid : exists n : Z, 1 <= n <= JsNumber.limit /\
                  JsNumber.String (idCounter w) = JsNumber.String n).
  { exists (idCounter w). split; [exact Hc | reflexivity]. }
  destruct e as [r | | x | x y | f | i | i | t]; simpl;
    try (exists []; split; [now rewrite app_nil_r | constructor]).
  - unfold execute_sendMessage, coerce_sendMessage.
    destruct (req_text r) as [| | t]; simpl;
      try (exists []; split; [now rewrite app_nil_r | constructor]).
    eexists. split; [reflexivity |].
    constructor; [| constructor]. split; [reflexivity |]. simpl.
    split; [reflexivity |]. split; [| exact Hid].
    left. repeat split.
  - eexists. split; [reflexivity |].
    constructor; [| constructor]. split; [reflexivity |]. simpl.
    split; [reflexivity |]. split; [| exact Hid].
    right. split; [reflexivity |]. split; [reflexivity |].
    split; [reflexivity |].
    exists (JsNumber.add (idCounter w) 1).
    split; [now apply add_one_in_range | reflexivity].
  - eexists. split; [reflexivity |].
    constructor; [| constructor]. split; reflexivity.
  - eexists. split; [reflexivity |].
    constructor; [| constructor]. split; [reflexivity |]. simpl. split.
    + destruct (above_half x); [left | right]; reflexivity.
    + destruct (above_half y); [left | right]; reflexivity.
Qed.

Lemma run_snoc (w : World) (evs : list event) (e : event) :
  run w (evs ++ [e]) = step (run w evs) e.
Proof. now rewrite run_app. Qed.

Lemma published_run_built (t0 : Z) (evs : list event) :
  Forall (fun x => fst x = topic_of (payload_field (snd x)) /\
                   built_by_server (snd x))
         (published (run (boot t0) evs)).
Proof.
  induction evs as [| e evs IH] using rev_ind.
  - constructor.
  - rewrite run_snoc.
    destruct (step_publishes (run (boot t0) evs) e (idCounter_in_range t0 evs))
      as [l [E Hl]].
    rewrite E. apply Forall_app. split; assumption.
Qed.

(** X2. Whatever the events of a run, every publish goes to the topic of
    the subscription field its payload is keyed by: [{ messageAdded }]
    to [MESSAGE_ADDED], [{ systemStatusChanged }] to
    [SYSTEM_STATUS_CHANGED], [{ settingsUpdated }] to
    [SETTINGS_UPDATED]; no publish is made with the key of one field on
    the topic of another. *)
Theorem publishes_go_to_their_topic (t0 : Z) (evs : list event) :
  Forall (fun x : string * payload =>
            fst x = topic_of (payload_field (snd x)))
         (published (run (boot t0) evs)).
Proof.
  eapply Forall_impl; [| apply published_run_built].
  intros x [H _]. exact H.
Qed.

(** X3. Everything the server ever publishes is of the shape its code
    builds.  A Message has [important = false], has an [id] that is the
    numeral of a number between [1] and [2^53], and is either a user's
    ([author = "user"], [channel = "general"], [tags = []]) or the
    generator's ([author = "server"], [channel = "news"],
    [tags = ["auto"]], text ["Server message #"] followed by a numeral);
    no request produces a Message with other values of these fields.  A
    SystemStatus has [online = true]; a Settings has a theme among
    ["dark"], ["light"] and a language among ["ja"], ["en"]. *)
Theorem published_payloads_are_built_by_server (t0 : Z) (evs : list event) :
  Forall built_by_server (map snd (published (run (boot t0) evs))).
Proof.
  apply Forall_map. eapply Forall_impl; [| apply published_run_built].
  intros x [_ H]. exact H.
Qed.

(** ** What a subscriber is handed *)

Lemma topic_of_inj (f f' : subscription_field) :
  topic_of f = topic_of f' -> f = f'.
Proof. destruct f, f'; simpl; intros H; try reflexivity; discriminate H. Qed.

Lemma In_published_since (w0 w : World) (x : string * payload) :
  In x (published_since w0 w) -> In x (published w).
Proof.
  unfold published_since. intros H.
  rewrite <- (firstn_skipn (length (published w0)) (published w)).
  apply in_or_app. now right.
Qed.

(** X4. A subscriber of a field, whenever it subscribes and whatever
    happens afterwards, is only ever handed payloads keyed by its own
    field and of the shape the server builds: a subscriber of
    [messageAdded] receives nothing but Messages, and no event published
    for another field reaches it. *)
Theorem subscriber_receives_its_own_field
        (t0 : Z) (pre : list event) (f : subscription_field)
        (evs : list event) :
  let w := run (boot t0) pre in
  let i := fst (Subscription_subscribe f w) in
  let w1 := snd (Subscription_subscribe f w) in
  Forall (fun p : payload => payload_field p = f /\ built_by_server p)
         (observed i w1 evs).
Proof.
  intros w i w1.
  assert (Hwf : registry_wf (pubsub w)) by apply registry_wf_boot.
  assert (Hf : PubSub.find i (pubsub w1)
               = Some (PubSub.mkSubscription i (topic_of f) [])).
  { exact (find_asyncIterator_new (topic_of f) (pubsub w) Hwf). }
  assert (Hi : (i < PubSub.next_sid (pubsub w1))%nat).
  { subst i w1. simpl. lia. }
  destruct (observed_subscribed evs i w1 _ Hf Hi) as [rest Hrest].
  simpl in Hrest.
  apply Forall_forall. intros p Hp.
  assert (Hin : In p (observed i w1 evs ++ rest)) by (apply in_or_app; now left).
  rewrite Hrest in Hin. unfold topic_payloads in Hin.
  apply in_map_iff in Hin. destruct Hin as [x [<- Hx]].
  apply filter_In in Hx. destruct Hx as [Hx Htp].
  apply String.eqb_eq in Htp. apply In_published_since in Hx.
  assert (Erun : run w1 evs = run (boot t0) (pre ++ Ev_subscribe f :: evs)).
  { rewrite run_app. reflexivity. }
  rewrite Erun in Hx.
  pose proof (published_run_built t0 (pre ++ Ev_subscribe f :: evs)) as Hall.
  rewrite Forall_forall in Hall. destruct (Hall x Hx) as [Hroute Hbuilt].
  split; [| exact Hbuilt].
  apply topic_of_inj. congruence.
Qed.

(** ** The settings generator *)

Lemma above_half_spec (r : Q) : above_half r = true <-> (1 # 2 < r)%Q.
Proof.
  unfold above_half.
  assert (E : (JsDouble.literal 5 10 == 1 # 2)%Q) by reflexivity.
  rewrite negb_true_iff. split; intros H.
  - apply Qnot_le_lt. intros Hle. rewrite <- E in Hle.
    apply Qle_bool_iff in Hle. congruence.
  - destruct (Qle_bool r (JsDouble.literal 5 10)) eqn:B; [| reflexivity].
    apply Qle_bool_iff in B. rewrite E in B.
    exfalso. exact (Qlt_not_le _ _ H B).
Qed.

(** X6. A tick of the settings generator publishes exactly one payload,
    on [SETTINGS_UPDATED], and leaves the counter and the clock alone.
    Its theme is ["dark"] exactly when the first draw is above [0.5] and
    ["light"] otherwise, a draw of exactly [0.5] included; its language
    is ["ja"] exactly when the second draw is above [0.5] and ["en"]
    otherwise; its [updatedAt] is the clock's reading. *)
Theorem settings_generator_tick (r1 r2 : Q) (w : World) :
  exists (s : Settings) (w' : World),
    run_async (settings_generator r1 r2) w = (tt, w') /\
    published w' =
      (published w ++ [(SETTINGS_UPDATED, settingsUpdated s)])%list /\
    pubsub w' = PubSub.publish SETTINGS_UPDATED (settingsUpdated s) (pubsub w) /\
    idCounter w' = idCounter w /\
    now w' = now w /\
    (theme s = "dark" <-> (1 # 2 < r1)%Q) /\
    (theme s = "light" <-> (r1 <= 1 # 2)%Q) /\
    (lang s = "ja" <-> (1 # 2 < r2)%Q) /\
    (lang s = "en" <-> (r2 <= 1 # 2)%Q) /\
    settings_updatedAt s = JsDate.toISOString (now w).
Proof.
  eexists. eexists.
  do 5 (split; [reflexivity |]). cbn [theme lang settings_updatedAt].
  pose proof (above_half_spec r1) as H1. pose proof (above_half_spec r2) as H2.
  assert (N : forall r, (r <= 1 # 2)%Q <-> ~ (1 # 2 < r)%Q).
  { intros r. split; [apply Qle_not_lt | apply Qnot_lt_le]. }
  split; [| split; [| split; [| split; [| reflexivity]]]].
  - destruct (above_half r1); split; intros H; try reflexivity;
      try discriminate H; try (now apply H1).
    apply H1 in H. discriminate H.
  - rewrite N. destruct (above_half r1); split; intros H; try reflexivity;
      try discriminate H.
    + exfalso. apply H. now apply H1.
    + intros L. apply H1 in L. discriminate L.
  - destruct (above_half r2); split; intros H; try reflexivity;
      try discriminate H; try (now apply H2).
    apply H2 in H. discriminate H.
  - rewrite N. destruct (above_half r2); split; intros H; try reflexivity;
      try discriminate H.
    + exfalso. apply H. now apply H2.
    + intros L. apply H2 in L. discriminate L.
Qed.

(** ** The load as a function of the draw *)

(** X7. The load the status generator publishes never decreases when
    the draw of [Math.random()] increases: the two roundings of the
    arithmetic, [toFixed(2)] and the reading back by [Number] all keep
    the order. *)
Theorem status_load_monotone (r r' : Q) :
  (0 <= r)%Q -> (r <= r')%Q -> (status_load r <= status_load r')%Q.
Proof.
  intros H0 Hle. unfold status_load, JsDouble.Number_of_fixed2,
    JsDouble.add, JsDouble.mul.
  set (c := JsDouble.literal 15 10). set (d := JsDouble.literal 1 10).
  assert (Hc : (0 <= c)%Q) by (vm_compute; discriminate).
  assert (Hd : (0 <= d)%Q) by (vm_compute; discriminate).
  assert (Hp : (0 <= r * c)%Q) by (now apply Qmult_le_0_compat).
  assert (Hm : (JsDouble.round (r * c) <= JsDouble.round (r' * c))%Q).
  { apply JsDoubleFacts.round_monotone; [exact Hp |].
    now apply Qmult_le_compat_r. }
  assert (Hm0 : (0 <= JsDouble.round (r * c))%Q).
  { change 0%Q with (JsDouble.round 0).
    apply JsDoubleFacts.round_monotone; [apply Qle_refl | exact Hp]. }
  set (m := JsDouble.round (r * c)) in *.
  set (m' := JsDouble.round (r' * c)) in *.
  assert (Hs0 : (0 <= m + d)%Q).
  { rewrite <- (Qplus_0_l 0). now apply Qplus_le_compat. }
  assert (Hx : (JsDouble.round (m + d) <= JsDouble.round (m' + d))%Q).
  { apply JsDoubleFacts.round_monotone; [exact Hs0 |]. now apply Qplus_le_l. }
  assert (Hx0 : (0 <= JsDouble.round (m + d))%Q).
  { change 0%Q with (JsDouble.round 0).
    apply JsDoubleFacts.round_monotone; [apply Qle_refl | exact Hs0]. }
  pose proof (toFixed2_monotone _ _ Hx0 Hx) as Hn.
  pose proof (toFixed2_monotone _ _ (Qle_refl 0) Hx0) as Hn0.
  change (JsDouble.toFixed2 0) with 0 in Hn0.
  set (n := JsDouble.toFixed2 (JsDouble.round (m + d))) in *.
  set (n' := JsDouble.toFixed2 (JsDouble.round (m' + d))) in *.
  apply JsDoubleFacts.round_monotone; unfold Qle; simpl; lia.
Qed.

Lemma status_load_monotone_witness :
  (status_load (1 # 4) <= status_load (3 # 4))%Q.
Proof.
  apply (status_load_monotone (1 # 4) (3 # 4)); unfold Qle; simpl; lia.
Defined.

(** * The front-end *)

(** ** The list of received Messages *)

Lemma onData_ids (d : option Client.Message) (l : list Client.Message) :
  NoDup (map Client.id l) -> NoDup (map Client.id (Client.onData d l)).
Proof.
  intros H. destruct d as [nm |]; simpl; [| exact H].
  destruct (existsb _ l) eqn:E; [exact H |].
  rewrite map_app. simpl. apply NoDup_app; [exact H | repeat constructor; simpl; tauto |].
  intros x Hx [<- | []].
  apply in_map_iff in Hx. destruct Hx as [m [Hm Hin]].
  assert (T : existsb (fun m0 => String.eqb (Client.id m0) (Client.id nm)) l = true).
  { apply existsb_exists. exists m. split; [exact Hin |]. now apply String.eqb_eq. }
  congruence.
Qed.

Lemma onData_grows (d : option Client.Message) (l : list Client.Message) :
  exists tl, Client.onData d l = (l ++ tl)%list /\
             forall m, In m tl -> d = Some m.
Proof.
  destruct d as [nm |]; simpl.
  - destruct (existsb _ l).
    + exists []. split; [now rewrite app_nil_r | intros m []].
    + exists [nm]. split; [reflexivity |]. intros m [<- | []]. reflexivity.
  - exists []. split; [now rewrite app_nil_r | intros m []].
Qed.

Lemma onData_has_id (m : Client.Message) (l : list Client.Message) :
  In (Client.id m) (map Client.id (Client.onData (Some m) l)).
Proof.
  simpl. destruct (existsb _ l) eqn:E.
  - apply existsb_exists in E. destruct E as [m0 [Hin Heq]].
    apply String.eqb_eq in Heq. rewrite <- Heq. now apply in_map.
  - rewrite map_app. apply in_or_app. right. now left.
Qed.

Lemma receive_keeps (ds : list (option Client.Message))
      (l : list Client.Message) (x : string) :
  In x (map Client.id l) -> In x (map Client.id (Client.receive ds l)).
Proof.
  revert l. induction ds as [| d ds IH]; intros l H; [exact H |].
  simpl. apply IH. destruct (onData_grows d l) as [tl [E _]].
  rewrite E, map_app. apply in_or_app. now left.
Qed.

(** X8. The list of Messages the front-end keeps never holds two
    Messages with the same [id], whatever arrives and in whatever order;
    every Message in it did arrive, and the [id] of everything that
    arrived is in it; a result without a Message changes nothing, and
    delivering the same result twice in a row is the same as delivering
    it once. *)
Theorem message_list_has_no_duplicate_ids
        (ds : list (option Client.Message)) :
  NoDup (map Client.id (Client.receive ds [])) /\
  (forall m, In m (Client.receive ds []) -> In (Some m) ds) /\
  (forall m, In (Some m) ds ->
             In (Client.id m) (map Client.id (Client.receive ds []))) /\
  (forall l, Client.onData None l = l) /\
  (forall d l, Client.onData d (Client.onData d l) = Client.onData d l).
Proof.
  split; [| split; [| split; [| split]]].
  - assert (G : forall l, NoDup (map Client.id l) ->
                          NoDup (map Client.id (Client.receive ds l))).
    { induction ds as [| d ds IH]; intros l H; [exact H |].
      simpl. apply IH. now apply onData_ids. }
    apply G. constructor.
  - assert (G : forall l m, In m (Client.receive ds l) ->
                            In m l \/ In (Some m) ds).
    { induction ds as [| d ds IH]; intros l m H; [now left |].
      simpl in H. apply IH in H. destruct H as [H | H].
      - destruct (onData_grows d l) as [tl [E Htl]]. rewrite E in H.
        apply in_app_or in H. destruct H as [H | H]; [now left |].
        right. left. now apply Htl.
      - right. now right. }
    intros m H. destruct (G [] m H) as [[] | H']. exact H'.
  - assert (G : forall l m, In (Some m) ds ->
                In (Client.id m) (map Client.id (Client.receive ds l))).
    { induction ds as [| d ds IH]; intros l m H; [destruct H |].
      simpl. destruct H as [-> | H].
      - apply receive_keeps, onData_has_id.
      - now apply IH. }
    intros m. apply G.
  - reflexivity.
  - intros [nm |] l; [| reflexivity]. simpl.
    destruct (existsb _ l) eqn:E; simpl.
    + now rewrite E.
    + rewrite existsb_app, E. simpl. now rewrite String.eqb_refl.
Qed.

(** A list without repeated [id]s is received whole. *)
Lemma receive_all (l prev : list Client.Message) :
  NoDup (map Client.id (prev ++ l)) ->
  Client.receive (map Some l) prev = (prev ++ l)%list.
Proof.
  revert prev. induction l as [| m l IH]; intros prev H; simpl.
  - now rewrite app_nil_r.
  - assert (E : existsb (fun m0 => String.eqb (Client.id m0) (Client.id m)) prev
                = false).
    { destruct (existsb _ prev) eqn:B; [| reflexivity].
      apply existsb_exists in B. destruct B as [m0 [Hin Heq]].
      apply String.eqb_eq in Heq.
      rewrite map_app in H. simpl in H. apply NoDup_remove_2 in H.
      exfalso. apply H. apply in_or_app. left. rewrite <- Heq. now apply in_map. }
    rewrite E. rewrite IH.
    + now rewrite <- app_assoc.
    + now rewrite <- app_assoc.
Qed.

Lemma ids_of_messages (l : list (string * payload)) :
  map id (messages_of l) = flat_map issued_id l.
Proof.
  induction l as [| [tp p] l IH]; [reflexivity |].
  unfold messages_of in *. simpl. rewrite map_app, IH.
  destruct p; reflexivity.
Qed.

Lemma select_id (l : list Message) :
  map Client.id (map Client.select l) = map id l.
Proof.
  rewrite map_map. apply map_ext. intros [i t c a ch im tg]. reflexivity.
Qed.

Lemma messages_of_app (l1 l2 : list (string * payload)) :
  messages_of (l1 ++ l2) = (messages_of l1 ++ messages_of l2)%list.
Proof. unfold messages_of. apply flat_map_app. Qed.

(** X9. As long as the server has handed out no more than [2^53]
    [id]s, the front-end loses nothing to its check for known [id]s: fed
    with the Messages published since it subscribed, in the order of
    their publication, its list is exactly these Messages (their [id],
    [text] and [createdAt]), each once and in that order. *)
Theorem front_end_shows_every_message
        (t0 : Z) (pre evs : list event) :
  Z.of_nat (count_issues (pre ++ evs)) <= JsNumber.limit ->
  Client.receive
    (map Some
       (map Client.select
          (messages_of (published_since (run (boot t0) pre)
                                        (run (run (boot t0) pre) evs)))))
    []
  = map Client.select
      (messages_of (published_since (run (boot t0) pre)
                                    (run (run (boot t0) pre) evs))).
Proof.
  intros Hk.
  set (w1 := run (boot t0) pre).
  destruct (published_run_grows evs w1) as [l Hl].
  rewrite (published_since_app w1 _ l Hl).
  apply (receive_all _ []). simpl. rewrite select_id, ids_of_messages.
  destruct (run_from_boot t0 (pre ++ evs)) as [_ Hi].
  rewrite map_nth_issue_below in Hi by assumption.
  assert (ND : NoDup (issued_ids (run (boot t0) (pre ++ evs)))).
  { rewrite Hi. apply Injective_map_NoDup; [| apply Zseq_NoDup].
    intros x y. apply String_inj. }
  rewrite run_app in ND. fold w1 in ND. unfold issued_ids in ND.
  rewrite Hl, flat_map_app in ND.
  now apply NoDup_app_remove_l in ND.
Qed.

Lemma front_end_shows_every_message_witness :
  Client.receive
    (map Some
       (map Client.select
          (messages_of
             (published_since
                (run (boot 0) [Ev_message_timer])
                (run (run (boot 0) [Ev_message_timer])
                     [Ev_sendMessage empty_text_request; Ev_message_timer])))))
    []
  = [Client.mk "2" "" "1970-01-01T00:00:00.000Z";
     Client.mk "3" "Server message #4" "1970-01-01T00:00:00.000Z"].
Proof.
  rewrite (front_end_shows_every_message 0 [Ev_message_timer]
             [Ev_sendMessage empty_text_request; Ev_message_timer]).
  - reflexivity.
  - vm_compute. discriminate.
Defined.

(** ** The form *)

Lemma trimStart_split (s : Client.js_string) :
  exists a, s = (a ++ Client.trimStart s)%list /\
            Forall (fun c => Client.is_white_space c = true) a.
Proof.
  induction s as [| c s [a [E Ha]]]; simpl.
  - exists []. split; [reflexivity | constructor].
  - destruct (Client.is_white_space c) eqn:W.
    + exists (c :: a). split; [simpl; now rewrite <- E | now constructor].
    + exists []. split; [reflexivity | constructor].
Qed.

Lemma trimStart_head (s : Client.js_string) (c : N) (t : Client.js_string) :
  Client.trimStart s = c :: t -> Client.is_white_space c = false.
Proof.
  induction s as [| x s IH]; simpl; [discriminate |].
  destruct (Client.is_white_space x) eqn:W; [exact IH |].
  intros E. injection E as <- _. exact W.
Qed.

Lemma trimStart_white (s : Client.js_string) :
  Client.trimStart s = [] <-> Forall (fun c => Client.is_white_space c = true) s.
Proof.
  induction s as [| x s IH]; simpl.
  - split; [constructor | reflexivity].
  - destruct (Client.is_white_space x) eqn:W.
    + rewrite IH. split; intros H; [now constructor | now inversion H].
    + split; [discriminate |]. intros H. inversion H. congruence.
Qed.

Lemma trimStart_snoc (a : Client.js_string) (x : N) :
  Client.is_white_space x = false ->
  Client.trimStart (a ++ [x])%list = (Client.trimStart a ++ [x])%list.
Proof.
  intros W. induction a as [| c a IH]; simpl.
  - now rewrite W.
  - destruct (Client.is_white_space c); [exact IH | reflexivity].
Qed.

(** [trim] cuts white space off both ends and nothing else. *)
Lemma trim_split (s : Client.js_string) :
  exists a b, s = (a ++ Client.trim s ++ b)%list /\
              Forall (fun c => Client.is_white_space c = true) a /\
              Forall (fun c => Client.is_white_space c = true) b.
Proof.
  destruct (trimStart_split s) as [a [Ea Ha]].
  destruct (trimStart_split (rev (Client.trimStart s))) as [b [Eb Hb]].
  exists a, (rev b). split; [| split; [exact Ha | now apply Forall_rev]].
  unfold Client.trim. rewrite <- rev_app_distr, <- Eb, rev_involutive.
  exact Ea.
Qed.

Lemma trim_ends (s : Client.js_string) (c : N) (t : Client.js_string) :
  Client.trim s = c :: t ->
  Client.is_white_space c = false /\
  Client.is_white_space (last (c :: t) c) = false.
Proof.
  unfold Client.trim. intros E.
  destruct (Client.trimStart s) as [| x l] eqn:Es.
  - simpl in E. discriminate E.
  - pose proof (trimStart_head _ _ _ Es) as Wx.
    simpl rev in E. rewrite trimStart_snoc in E by exact Wx.
    rewrite rev_app_distr in E. simpl in E. injection E as <- Et.
    split; [exact Wx |].
    destruct (Client.trimStart (rev l)) as [| y l'] eqn:El.
    + simpl in Et. subst t. exact Wx.
    + pose proof (trimStart_head _ _ _ El) as Wy.
      simpl in Et. subst t.
      change (x :: (rev l' ++ [y])%list) with ((x :: rev l') ++ [y])%list.
      now rewrite last_last.
Qed.

Lemma last_any_default {A : Type} (l : list A) (d d' : A) :
  l <> [] -> last l d = last l d'.
Proof.
  induction l as [| x l IH]; intros H; [contradiction |].
  destruct l as [| y l]; [reflexivity |].
  change (last (y :: l) d = last (y :: l) d'). apply IH. discriminate.
Qed.

Lemma trim_white (s : Client.js_string) :
  Client.trim s = [] <-> Forall (fun c => Client.is_white_space c = true) s.
Proof.
  split.
  - intros E. destruct (trim_split s) as [a [b [Es [Ha Hb]]]].
    rewrite E in Es. simpl in Es. rewrite Es. apply Forall_app. now split.
  - intros H. unfold Client.trim.
    apply trimStart_white in H. rewrite H. reflexivity.
Qed.

(** X10. The form never sends a blank text.  When what was typed is
    empty or all white space, a submit sends nothing and changes
    nothing.  Otherwise it sends the mutation once, with the typed text
    cut of the white space at its two ends and of nothing else: a text
    that is not empty and neither starts nor ends with white space.  The
    input is cleared when the mutation succeeds; when it fails the user
    is alerted and the typed text is kept.  A submit never touches the
    list of Messages. *)
Theorem handleSubmit_never_sends_blank_text
        (mutation : Client.settlement) (st : Client.State) :
  match fst (Client.handleSubmit mutation st) with
  | Client.nothing_sent =>
      Forall (fun c => Client.is_white_space c = true) (Client.input st) /\
      snd (Client.handleSubmit mutation st) = st
  | Client.sent t alerted =>
      t = Client.trim (Client.input st) /\
      t <> [] /\
      Client.is_white_space (hd 0%N t) = false /\
      Client.is_white_space (last t 0%N) = false /\
      (exists a b,
          Client.input st = (a ++ t ++ b)%list /\
          Forall (fun c => Client.is_white_space c = true) a /\
          Forall (fun c => Client.is_white_space c = true) b) /\
      Client.messages (snd (Client.handleSubmit mutation st))
        = Client.messages st /\
      match mutation with
      | Client.fulfilled =>
          alerted = false /\
          Client.input (snd (Client.handleSubmit mutation st)) = []
      | Client.rejected =>
          alerted = true /\ snd (Client.handleSubmit mutation st) = st
      end
  end.
Proof.
  unfold Client.handleSubmit.
  destruct (Client.trim (Client.input st)) as [| c t] eqn:E.
  - simpl. split; [now apply trim_white | reflexivity].
  - destruct (trim_ends _ _ _ E) as [Wh Wl].
    assert (Hsplit : exists a b,
              Client.input st = (a ++ (c :: t) ++ b)%list /\
              Forall (fun c => Client.is_white_space c = true) a /\
              Forall (fun c => Client.is_white_space c = true) b).
    { rewrite <- E. apply trim_split. }
    assert (Hl : Client.is_white_space (last (c :: t) 0%N) = false).
    { rewrite (last_any_default (c :: t) 0%N c) by discriminate. exact Wl. }
    destruct mutation; simpl;
      (split; [reflexivity |]); (split; [discriminate |]);
      (split; [exact Wh |]); (split; [exact Hl |]);
      (split; [exact Hsplit |]); (split; [reflexivity |]);
      split; reflexivity.
Qed.

(** * The server and its first version *)

Lemma same_for_front_end_step (w : World) (sw : Stub.World) (e : event) :
  same_for_front_end w sw ->
  same_for_front_end (step w e) (Stub.run sw (to_stub e)).
Proof.
  intros [Hc [Hn Hp]]. unfold same_for_front_end.
  destruct e as [r | | x | x y | f | i | i | t];
    cbn -[messages_of JsNumber.add JsNumber.String JsDate.toISOString
          String.append].
  - unfold execute_sendMessage, coerce_sendMessage, Stub.execute_sendMessage.
    destruct (req_text r) as [| | t];
      cbn -[messages_of JsNumber.add JsNumber.String JsDate.toISOString
            String.append]; auto.
    rewrite messages_of_app, !map_app, Hp, Hc, Hn. auto.
  - rewrite messages_of_app, !map_app, Hp, Hc, Hn. auto.
  - rewrite messages_of_app, app_nil_r. auto.
  - rewrite messages_of_app, app_nil_r. auto.
  - auto.
  - auto.
  - auto.
  - auto.
Qed.

Lemma stub_run_app (sw : Stub.World) (a b : list Stub.event) :
  Stub.run sw (a ++ b) = Stub.run (Stub.run sw a) b.
Proof. unfold Stub.run. apply fold_left_app. Qed.

Lemma same_for_front_end_run (evs : list event) (w : World) (sw : Stub.World) :
  same_for_front_end w sw ->
  same_for_front_end (run w evs) (Stub.run sw (flat_map to_stub evs)).
Proof.
  revert w sw. induction evs as [| e evs IH]; intros w sw H; [exact H |].
  simpl flat_map. rewrite stub_run_app.
  apply (IH (step w e)). now apply same_for_front_end_step.
Qed.

(** X11. The server is its first version as far as the documented
    front-end can see.  Run from the start on the same texts, the same
    ticks of the message timer and the same clock, the two hold the same
    counter and have published Messages with the same [id], [text] and
    [createdAt] in the same order, whatever [author], [channel],
    [important] and [tags] the requests carry and however many ticks of
    the status and settings generators, subscriptions and unsubscriptions
    the run contains besides. *)
Theorem server_extends_its_first_version (t0 : Z) (evs : list event) :
  idCounter (run (boot t0) evs)
    = Stub.idCounter (Stub.run (Stub.boot t0) (flat_map to_stub evs)) /\
  map Client.select (messages_of (published (run (boot t0) evs)))
    = map Stub.selected
        (map snd (Stub.published
                    (Stub.run (Stub.boot t0) (flat_map to_stub evs)))).
Proof.
  destruct (same_for_front_end_run evs (boot t0) (Stub.boot t0)) as [Hc [_ Hp]].
  - repeat split.
  - split; assumption.
Qed.

(** ** The Messages and the other generators *)

Lemma same_for_messages_step (w w' : World) (e : event) :
  same_for_messages w w' ->
  same_for_messages (step w e) (if affects_messages e then step w' e else w').
Proof.
  intros [Hc [Hn Hp]]. unfold same_for_messages.
  destruct e as [r | | x | x y | f | i | i | t]; simpl.
  - unfold execute_sendMessage. destruct (coerce_sendMessage r); simpl.
    + auto.
    + rewrite !messages_of_app, Hc, Hn, Hp. auto.
  - rewrite !messages_of_app, Hc, Hn, Hp. auto.
  - rewrite messages_of_app. simpl. rewrite app_nil_r. auto.
  - rewrite messages_of_app. simpl. rewrite app_nil_r. auto.
  - auto.
  - auto.
  - auto.
  - auto.
Qed.

Lemma same_for_messages_run (evs : list event) (w w' : World) :
  same_for_messages w w' ->
  same_for_messages (run w evs) (run w' (filter affects_messages evs)).
Proof.
  revert w w'. induction evs as [| e evs IH]; intros w w' H; [exact H |].
  cbn [filter]. pose proof (same_for_messages_step w w' e H) as Hs.
  destruct (affects_messages e); apply IH; exact Hs.
Qed.

(** X12. The Messages owe nothing to the status generator, to the
    settings generator or to the subscribers: with every tick of those
    two generators and every subscribe, [next] and unsubscribe taken out
    of a run, the counter and the clock end the same and the same
    Messages are published in the same order, with the same [id]s, texts
    and timestamps; and Messages are all that the remaining events
    publish. *)
Theorem messages_depend_on_their_events_only (t0 : Z) (evs : list event) :
  idCounter (run (boot t0) evs)
    = idCounter (run (boot t0) (filter affects_messages evs)) /\
  now (run (boot t0) evs)
    = now (run (boot t0) (filter affects_messages evs)) /\
  messages_of (published (run (boot t0) evs))
    = messages_of (published (run (boot t0) (filter affects_messages evs))) /\
  map snd (published (run (boot t0) (filter affects_messages evs)))
    = map messageAdded
          (messages_of
             (published (run (boot t0) (filter affects_messages evs)))).
Proof.
  assert (H0 : same_for_messages (boot t0) (boot t0)) by (repeat split).
  destruct (same_for_messages_run evs _ _ H0) as [Hc [Hn Hp]].
  split; [exact Hc |]. split; [exact Hn |]. split; [exact Hp |].
  assert (G : forall l, Forall (fun e => affects_messages e = true) l ->
            forall w,
              map snd (published w)
              = map messageAdded (messages_of (published w)) ->
              map snd (published (run w l))
              = map messageAdded (messages_of (published (run w l)))).
  { induction l as [| e l IH]; intros Hl w Hw; [exact Hw |].
    inversion Hl as [| ? ? He Hl']; subst. simpl run. apply IH; [exact Hl' |].
    destruct e as [r | | x | x y | f | i | i | t]; simpl;
      try discriminate He; try exact Hw;
      try (rewrite messages_of_app, !map_app, Hw; reflexivity).
    unfold execute_sendMessage. destruct (coerce_sendMessage r); simpl.
    - exact Hw.
    - rewrite messages_of_app, !map_app, Hw. reflexivity. }
  apply G; [| reflexivity].
  apply Forall_forall. intros e He. apply filter_In in He. tauto.
Qed.
